(** * django_spanner: the bulk-create write path

    A shallow embedding of [django_spanner/__init__.py]:
    [spanner_bulk_create], [spanner_check_bulk_create_options] and
    [spanner_prepare_for_bulk_create], together with the Django helpers
    they are written against ([partition], [range], slicing,
    [transaction.atomic]).

    Model instances are mutable Python objects: they live in a store
    indexed by references, and a list of instances is a list of
    references, so that an object listed twice is one object. *)

From Stdlib Require Import ZArith.
From stdpp Require Import base option list strings functions gmap.

Local Open Scope string_scope.
Local Open Scope list_scope.
Local Open Scope Z_scope.

(** ** Values, fields and model metadata *)

(** Python values that can sit in a column attribute. [VNone] is [None]. *)
Inductive value : Type :=
| VNone
| VInt (z : Z)
| VStr (s : string).

#[global] Instance value_eq_dec : EqDecision value.
Proof. solve_decision. Defined.

(** What the code reads of a [django.db.models.Field]. [auto_field] stands
    for [isinstance(f, AutoField)]. *)
Record Field : Type := mkField {
  attname : string;
  concrete : bool;
  many_to_many : bool;
  primary_key : bool;
  auto_field : bool
}.

#[global] Instance Field_eq_dec : EqDecision Field.
Proof. solve_decision. Defined.

(** [f != g] on fields. Django compares the fields' creation counters;
    among the fields of one model that is the same as comparing their
    attribute names, which is what an instance's attributes are keyed by. *)
Definition field_ne (f g : Field) : bool :=
  negb (String.eqb (attname f) (attname g)).

(** [model._meta]. [get_field] answers [None] where Django raises
    [FieldDoesNotExist]; [get_parent_list] gives, for each parent model,
    its [_meta.concrete_model]. *)
Record Options : Type := mkOptions {
  concrete_fields : list Field;
  db_returning_fields : list Field;
  pk : Field;
  get_field : string → option Field;
  concrete_model : string;
  get_parent_list : list string
}.

(** [connection.features]. [max_query_params] is the backend's limit on
    the number of query parameters, a positive count. *)
Record DatabaseFeatures : Type := mkFeatures {
  max_query_params : positive;
  supports_ignore_conflicts : bool;
  supports_update_conflicts : bool;
  supports_update_conflicts_with_target : bool;
  can_return_rows_from_bulk_insert : bool
}.

Inductive OnConflict : Type :=
| IGNORE
| UPDATE.

#[global] Instance OnConflict_eq_dec : EqDecision OnConflict.
Proof. solve_decision. Defined.

Inductive exn : Type :=
| ValueError (msg : string)
| NotSupportedError (msg : string)
| FieldDoesNotExist (name : string)
| AssertionError
| DatabaseError (code : Z).

#[global] Instance exn_eq_dec : EqDecision exn.
Proof. solve_decision. Defined.

(** A queryset: the alias of its database and the metadata of its model. *)
Record QuerySet : Type := mkQuerySet {
  db : string;
  _meta : Options
}.

(** ** Python helpers *)

(** Truth value of an optional sequence: [None] and the empty list are
    false. *)
Definition truthy {A} (xs : option (list A)) : bool :=
  match xs with
  | Some (_ :: _) => true
  | _ => false
  end.

Definition items {A} (xs : option (list A)) : list A := default [] xs.

(** [range(start, stop, step)] as a list. *)
Definition range (start stop step : Z) : exn + list Z :=
  if step =? 0 then inl (ValueError "range() arg 3 must not be zero")
  else
    let len :=
      if 0 <? step then (stop - start + step - 1) / step
      else (start - stop - step - 1) / (- step) in
    inr ((λ k : nat, start + Z.of_nat k * step) <$> seq 0 (Z.to_nat len)).

(** A slice bound as Python normalises it: negative bounds count from the
    end, and the result is clamped to [0, len]. *)
Definition slice_index (len i : Z) : Z :=
  let i := if i <? 0 then i + len else i in
  Z.max 0 (Z.min len i).

(** [l[lo:hi]] *)
Definition slice {A} (l : list A) (lo hi : Z) : list A :=
  let len := Z.of_nat (length l) in
  let lo := slice_index len lo in
  let hi := slice_index len hi in
  take (Z.to_nat (hi - lo)) (drop (Z.to_nat lo) l).

(** [[objs[x : x + batch_size] for x in range(0, len(objs), batch_size)]] *)
Definition chunks {A} (objs : list A) (batch_size : Z) : exn + list (list A) :=
  match range 0 (Z.of_nat (length objs)) batch_size with
  | inl e => inl e
  | inr xs => inr ((λ x, slice objs x (x + batch_size)) <$> xs)
  end.

(** [django.utils.functional.partition]:
    [results = ([], [])], then for every item
    [results[predicate(item)].append(item)]. *)
Definition partition {A} (predicate : A → bool) (values : list A)
  : list A * list A :=
  foldl (λ results item,
           if predicate item
           then (results.1, results.2 ++ [item])
           else (results.1 ++ [item], results.2))
        ([], []) values.

(** Putting the two groups of a partition back where they came from:
    position by position, the next element of the group the flag names. *)
Fixpoint restore_positions {A} (lacks : list bool) (with_pk without_pk : list A)
  : list A :=
  match lacks with
  | [] => []
  | true :: rest =>
      match without_pk with
      | x :: without_pk' => x :: restore_positions rest with_pk without_pk'
      | [] => []
      end
  | false :: rest =>
      match with_pk with
      | x :: with_pk' => x :: restore_positions rest with_pk' without_pk
      | [] => []
      end
  end.

(** ** Model instances and the object store *)

(** A model instance: its column attributes, and [_state.adding] and
    [_state.db]. *)
Record Instance : Type := mkInstance {
  attrs : gmap string value;
  adding : bool;
  state_db : option string
}.

Definition getattr (o : Instance) (a : string) : value :=
  default VNone (attrs o !! a).

Definition setattr (o : Instance) (a : string) (v : value) : Instance :=
  mkInstance (<[a := v]> (attrs o)) (adding o) (state_db o).

(** [obj.pk] is the attribute of the primary-key field. *)
Definition get_pk (opts : Options) (o : Instance) : value :=
  getattr o (attname (pk opts)).

Definition set_pk (opts : Options) (o : Instance) (v : value) : Instance :=
  setattr o (attname (pk opts)) v.

(** [obj.pk is None] *)
Definition pk_is_None (opts : Options) (o : Instance) : bool :=
  bool_decide (get_pk opts o = VNone).

(** [obj._state.adding = False; obj._state.db = db] *)
Definition mark_saved (db : string) (o : Instance) : Instance :=
  mkInstance (attrs o) false (Some db).

(** References to instances, and the store they point into. *)
Abbreviation loc := nat (only parsing).
Abbreviation Store := (loc → Instance) (only parsing).

(** ** Transactions

    The state of a database connection as [transaction.atomic] sees it,
    after Django's [Atomic.__enter__] and [Atomic.__exit__] on a
    connection in autocommit mode. [DB] is what the database holds. *)

(** Either no transaction is open, or one is: then [start] is what the
    database held when it began and [savepoint_ids] has one entry per
    nested atomic block, [None] for a block entered without savepoint. *)
Inductive TxState (DB : Type) : Type :=
| Autocommit
| InTransaction (start : DB) (savepoint_ids : list (option DB)).
Arguments Autocommit {DB}.
Arguments InTransaction {DB} start savepoint_ids.

Record Connection (DB : Type) : Type := mkConnection {
  data : DB;
  tx : TxState DB;
  needs_rollback : bool
}.
Arguments mkConnection {DB} data tx needs_rollback.
Arguments data {DB} c.
Arguments tx {DB} c.
Arguments needs_rollback {DB} c.

Definition in_atomic_block {DB} (c : Connection DB) : bool :=
  match tx c with
  | Autocommit => false
  | InTransaction _ _ => true
  end.

(** [Atomic.__enter__]: the outermost block clears [needs_rollback] and
    begins a transaction; a nested block takes a savepoint if asked to and
    not already waiting for a rollback, and otherwise records [None]. *)
Definition atomic_enter {DB} (savepoint : bool) (c : Connection DB)
  : Connection DB :=
  match tx c with
  | Autocommit => mkConnection (data c) (InTransaction (data c) []) false
  | InTransaction start sids =>
      let sid :=
        if savepoint && negb (needs_rollback c) then Some (data c) else None in
      mkConnection (data c) (InTransaction start (sid :: sids)) (needs_rollback c)
  end.

(** [Atomic.__exit__]; [ok] says that the block raised nothing. A nested
    block releases or rolls back to its savepoint, and without a
    savepoint marks the transaction for rollback; the outermost block
    commits or rolls back. *)
Definition atomic_exit {DB} (ok : bool) (c : Connection DB) : Connection DB :=
  match tx c with
  | Autocommit => c
  | InTransaction start (sid :: sids) =>
      if ok && negb (needs_rollback c)
      then mkConnection (data c) (InTransaction start sids) (needs_rollback c)
      else
        match sid with
        | None => mkConnection (data c) (InTransaction start sids) true
        | Some saved => mkConnection saved (InTransaction start sids) false
        end
  | InTransaction start [] =>
      if ok && negb (needs_rollback c)
      then mkConnection (data c) Autocommit (needs_rollback c)
      else mkConnection start Autocommit false
  end.

(** What a query on the connection is answered from: Django refuses to
    run queries on a transaction marked for rollback. *)
Definition readable {DB} (c : Connection DB) : option DB :=
  if needs_rollback c then None else Some (data c).

(** ** Calls to the collaborators, as they happen *)

(** The call site of a bulk insert. *)
Inductive Group : Type :=
| HasKey
| LacksKey.

#[global] Instance Group_eq_dec : EqDecision Group.
Proof. solve_decision. Defined.

(** One entry per call that leaves the function: a key drawn for an
    instance, the atomic block entered and left ([ok]: nothing was
    raised inside), a bulk insert with its arguments and the number of
    rows it returned ([None] when it raised). *)
Inductive Event : Type :=
| EvAssignKey (obj : loc)
| EvAtomicEnter (using_db : string) (savepoint : bool)
| EvAtomicExit (ok : bool)
| EvInsert (site : Group) (objs : list loc) (fields : list Field)
           (batch_size : Z) (on_conflict : option OnConflict)
           (returned : option nat).

#[global] Instance Event_eq_dec : EqDecision Event.
Proof. solve_decision. Defined.

(** ** The world a call runs in

    The object store, the source the key generator draws from, the
    connection of the queryset's database, the calls made so far, and the
    queryset's [_for_write] flag. *)
Record World (G DB : Type) : Type := mkWorld {
  heap : Store;
  rng : G;
  conn : Connection DB;
  log : list Event;
  for_write : bool
}.
Arguments mkWorld {G DB} heap rng conn log for_write.
Arguments heap {G DB} w.
Arguments rng {G DB} w.
Arguments conn {G DB} w.
Arguments log {G DB} w.
Arguments for_write {G DB} w.

(** Statements: a world in, a world and either an exception or a value
    out. The world survives an exception, as Python objects and the
    connection do. *)
Definition M (G DB A : Type) : Type := World G DB → World G DB * (exn + A).

Definition ret {G DB A} (a : A) : M G DB A := λ w, (w, inr a).

Definition raise {G DB A} (e : exn) : M G DB A := λ w, (w, inl e).

Definition bind {G DB A B} (m : M G DB A) (k : A → M G DB B) : M G DB B :=
  λ w, match m w with
       | (w', inr a) => k a w'
       | (w', inl e) => (w', inl e)
       end.

Definition lift {G DB A} (r : exn + A) : M G DB A := λ w, (w, r).

Definition gets {G DB A} (f : World G DB → A) : M G DB A := λ w, (w, inr (f w)).

Definition modify {G DB} (f : World G DB → World G DB) : M G DB unit :=
  λ w, (f w, inr tt).

Notation "'let*' x ':=' m 'in' k" := (bind m (λ x, k))
  (at level 10, x pattern, m at level 100, k at level 200).
Notation "m ';;;' k" := (bind m (λ _, k))
  (at level 100, k at level 200, right associativity).

(** [for x in xs: body(x)] *)
Fixpoint for_each {G DB A} (xs : list A) (body : A → M G DB unit) : M G DB unit :=
  match xs with
  | [] => ret tt
  | x :: xs' => body x ;;; for_each xs' body
  end.

Definition is_ok {A} (r : exn + A) : bool :=
  match r with
  | inr _ => true
  | inl _ => false
  end.

Definition set_heap {G DB} (h : Store) (w : World G DB) : World G DB :=
  mkWorld h (rng w) (conn w) (log w) (for_write w).

Definition set_conn {G DB} (c : Connection DB) (w : World G DB) : World G DB :=
  mkWorld (heap w) (rng w) c (log w) (for_write w).

Definition emit {G DB} (ev : Event) (w : World G DB) : World G DB :=
  mkWorld (heap w) (rng w) (conn w) (log w ++ [ev]) (for_write w).

Definition set_for_write {G DB} (b : bool) (w : World G DB) : World G DB :=
  mkWorld (heap w) (rng w) (conn w) (log w) b.

(** Entering and leaving an atomic block on the world's connection. *)
Definition enter_atomic {G DB} (using_db : string) (savepoint : bool)
    (w : World G DB) : World G DB :=
  emit (EvAtomicEnter using_db savepoint)
       (set_conn (atomic_enter savepoint (conn w)) w).

Definition exit_atomic {G DB} (ok : bool) (w : World G DB) : World G DB :=
  emit (EvAtomicExit ok) (set_conn (atomic_exit ok (conn w)) w).

(** [with transaction.atomic(using=..., savepoint=...): body] *)
Definition atomic {G DB A} (using_db : string) (savepoint : bool)
    (body : M G DB A) : M G DB A :=
  λ w,
    let '(w2, r) := body (enter_atomic using_db savepoint w) in
    (exit_atomic (is_ok r) w2, r).

(** [[get_field(name) for name in names]] *)
Fixpoint get_fields (opts : Options) (names : list string) : exn + list Field :=
  match names with
  | [] => inr []
  | name :: rest =>
      match get_field opts name with
      | None => inl (FieldDoesNotExist name)
      | Some f =>
          match get_fields opts rest with
          | inl e => inl e
          | inr fs => inr (f :: fs)
          end
      end
  end.

(** [any(not f.concrete or f.many_to_many for f in fs)] *)
Definition any_not_concrete (fs : list Field) : bool :=
  existsb (λ f, negb (concrete f) || many_to_many f) fs.

(** Writing returned values back onto an instance that came with a key:
    [for result, field in zip(results, opts.db_returning_fields):
       if field != opts.pk: setattr(obj, field.attname, result)] *)
Definition set_returned_except_pk (opts : Options) (results : list value)
    (o : Instance) : Instance :=
  foldl (λ o rf, if field_ne rf.2 (pk opts)
                 then setattr o (attname rf.2) rf.1 else o)
        o (zip results (db_returning_fields opts)).

(** The same for an instance that came without a key: every returning
    field is written. *)
Definition set_returned (opts : Options) (results : list value)
    (o : Instance) : Instance :=
  foldl (λ o rf, setattr o (attname rf.2) rf.1)
        o (zip results (db_returning_fields opts)).

(** Lines 140-151: the returned columns of a chunk are written back pair
    by pair, then every instance of the chunk is marked as saved. *)
Definition write_back_with_pk (self : QuerySet) (chunk_with_pk : list loc)
    (returned_columns : list (list value)) (h : Store) : Store :=
  let h1 :=
    foldl (λ h pr, <[pr.1 := set_returned_except_pk (_meta self) pr.2 (h pr.1)]> h)
          h (zip chunk_with_pk returned_columns) in
  foldl (λ h obj, <[obj := mark_saved (db self) (h obj)]> h) h1 chunk_with_pk.

(** Lines 169-175: an instance is written to and marked as saved inside
    the loop over the pairs of instances and returned rows. *)
Definition write_back_without_pk (self : QuerySet) (objs_without_pk : list loc)
    (returned_columns : list (list value)) (h : Store) : Store :=
  foldl (λ h pr,
           <[pr.1 := mark_saved (db self)
                       (set_returned (_meta self) pr.2 (h pr.1))]> h)
        h (zip objs_without_pk returned_columns).

(** ** The three functions of the module *)

Section BulkCreate.
Context {G DB : Type}.

(** [connections[alias].features]; [connection_db] is the connection of
    the default database. *)
Context (connections : string → DatabaseFeatures).

(** [field.get_pk_value_on_save(obj)]: the hook that draws a key for an
    instance that has none. It answers [VNone] for a key field without
    a default. *)
Context (get_pk_value_on_save : G → Instance → value * G).

(** [obj._prepare_related_fields_for_save(...)]: raises for a related
    object without a key, and otherwise may fill in foreign-key
    attributes of the instance. *)
Context (_prepare_related_fields_for_save : Store → loc → exn + Instance).

(** [QuerySet._batched_insert]: runs the insert statements for the given
    instances against what the connection holds, and answers the new
    contents together with the returned rows or the exception raised;
    the contents may have changed also when it raised. *)
Context (_batched_insert :
           DB → list Instance → list Field → Z → option OnConflict →
           option (list string) → option (list string) →
           DB * (exn + list (list value))).

Definition connection_db : DatabaseFeatures := connections "default".

Definition spanner_check_bulk_create_options (self : QuerySet)
    (ignore_conflicts update_conflicts : bool)
    (update_fields unique_fields : option (list string))
  : exn + option OnConflict :=
  if ignore_conflicts && update_conflicts then
    inl (ValueError
           "ignore_conflicts and update_conflicts are mutually exclusive.")
  else
    let db_features := connections (db self) in
    if ignore_conflicts then
      if negb (supports_ignore_conflicts db_features) then
        inl (NotSupportedError
               "This database backend does not support ignoring conflicts.")
      else inr (Some IGNORE)
    else if update_conflicts then
      if negb (supports_update_conflicts db_features) then
        inl (NotSupportedError
               "This database backend does not support updating conflicts.")
      else if negb (truthy update_fields) then
        inl (ValueError
               "Fields that will be updated when a row insertion fails on conflicts must be provided.")
      else if truthy unique_fields
              && negb (supports_update_conflicts_with_target db_features) then
        inl (NotSupportedError
               "This database backend does not support updating conflicts with specifying unique fields that can trigger the upsert.")
      else if negb (truthy unique_fields)
              && supports_update_conflicts_with_target db_features then
        inl (ValueError
               "Unique fields that can trigger the upsert must be provided.")
      else
        match get_fields (_meta self) (items update_fields) with
        | inl e => inl e
        | inr update_fields =>
            if any_not_concrete update_fields then
              inl (ValueError
                     "bulk_create() can only be used with concrete fields in update_fields.")
            else if existsb primary_key update_fields then
              inl (ValueError
                     "bulk_create() cannot be used with primary keys in update_fields.")
            else if truthy unique_fields then
              match get_fields (_meta self)
                      (filter (λ name, name ≠ "pk") (items unique_fields)) with
              | inl e => inl e
              | inr unique_fields =>
                  if any_not_concrete unique_fields then
                    inl (ValueError
                           "bulk_create() can only be used with concrete fields in unique_fields.")
                  else inr (Some UPDATE)
              end
            else inr (Some UPDATE)
        end
    else inr None.

(** [obj.pk = obj._meta.pk.get_pk_value_on_save(obj)] *)
Definition assign_pk (self : QuerySet) (obj : loc) : M G DB unit :=
  λ w,
    let '(v, g) := get_pk_value_on_save (rng w) (heap w obj) in
    (mkWorld (<[obj := set_pk (_meta self) (heap w obj) v]> (heap w)) g
             (conn w) (log w ++ [EvAssignKey obj]) (for_write w),
     inr tt).

Definition prepare_related_fields_for_save (obj : loc) : M G DB unit :=
  λ w,
    match _prepare_related_fields_for_save (heap w) obj with
    | inl e => (w, inl e)
    | inr o => (set_heap (<[obj := o]> (heap w)) w, inr tt)
    end.

Definition spanner_prepare_for_bulk_create (self : QuerySet)
    (objs : list loc) : M G DB unit :=
  for_each objs (λ obj,
    let* o := gets (λ w, heap w obj) in
    (if pk_is_None (_meta self) o then assign_pk self obj else ret tt) ;;;
    prepare_related_fields_for_save obj).

(** A call of [self._batched_insert(objs, fields, batch_size, ...)]. *)
Definition batched_insert (site : Group) (objs : list loc)
    (fields : list Field) (batch_size : Z)
    (on_conflict : option OnConflict)
    (update_fields unique_fields : option (list string))
  : M G DB (list (list value)) :=
  λ w,
    let '(d, r) :=
      _batched_insert (data (conn w)) (heap w <$> objs) fields batch_size
                      on_conflict update_fields unique_fields in
    (emit (EvInsert site objs fields batch_size on_conflict
                    (match r with inr rows => Some (length rows) | inl _ => None end))
          (set_conn (mkConnection d (tx (conn w)) (needs_rollback (conn w))) w),
     r).

(** Lines 126-151. *)
Definition insert_objs_with_pk (self : QuerySet)
    (on_conflict : option OnConflict)
    (update_fields unique_fields : option (list string))
    (fields : list Field) (batch_size : Z) (objs_with_pk : list loc)
  : M G DB unit :=
  match objs_with_pk with
  | [] => ret tt
  | _ :: _ =>
      let* cs := lift (chunks objs_with_pk batch_size) in
      for_each cs (λ chunk_with_pk,
        let* returned_columns :=
          batched_insert HasKey chunk_with_pk fields batch_size on_conflict
                         update_fields unique_fields in
        modify (λ w, set_heap (write_back_with_pk self chunk_with_pk
                                 returned_columns (heap w)) w))
  end.

(** Lines 153-175. *)
Definition insert_objs_without_pk (self : QuerySet)
    (on_conflict : option OnConflict)
    (update_fields unique_fields : option (list string))
    (fields : list Field) (batch_size : Z) (objs_without_pk : list loc)
  : M G DB unit :=
  match objs_without_pk with
  | [] => ret tt
  | _ :: _ =>
      let fields := filter (λ f, ¬ auto_field f) fields in
      let* returned_columns :=
        batched_insert LacksKey objs_without_pk fields batch_size on_conflict
                       update_fields unique_fields in
      let connection := connections (db self) in
      (if can_return_rows_from_bulk_insert connection
          && bool_decide (on_conflict = None)
       then
         if bool_decide (length returned_columns = length objs_without_pk)
         then ret tt else raise AssertionError
       else ret tt) ;;;
      modify (λ w, set_heap (write_back_without_pk self objs_without_pk
                               returned_columns (heap w)) w)
  end.

Definition spanner_bulk_create (self : QuerySet) (objs : list loc)
    (batch_size : option Z) (ignore_conflicts update_conflicts : bool)
    (update_fields unique_fields : option (list string))
  : M G DB (list loc) :=
  if match batch_size with Some b => b <=? 0 | None => false end then
    raise (ValueError "Batch size must be a positive integer.")
  else if existsb (λ parent, negb (String.eqb parent (concrete_model (_meta self))))
                  (get_parent_list (_meta self)) then
    raise (ValueError "Can't bulk create a multi-table inherited model")
  else
    match objs with
    | [] => ret objs
    | _ :: _ =>
        let* on_conflict :=
          lift (spanner_check_bulk_create_options self ignore_conflicts
                  update_conflicts update_fields unique_fields) in
        modify (set_for_write true) ;;;
        let opts := _meta self in
        let fields := concrete_fields opts in
        spanner_prepare_for_bulk_create self objs ;;;
        let batch_size := Z.pos (max_query_params connection_db) in
        atomic (db self) false (
          let* groups :=
            gets (λ w, partition (λ o, pk_is_None opts (heap w o)) objs) in
          let objs_with_pk := groups.1 in
          let objs_without_pk := groups.2 in
          insert_objs_with_pk self on_conflict update_fields unique_fields
                              fields batch_size objs_with_pk ;;;
          insert_objs_without_pk self on_conflict update_fields unique_fields
                                 fields batch_size objs_without_pk) ;;;
        ret objs
    end.

End BulkCreate.

(** ** What is observed of a run *)

(** An instance has a key. *)
Definition has_pk (opts : Options) (o : Instance) : Prop :=
  get_pk opts o ≠ VNone.

(** The second world has the calls of the first, followed by calls that
    all satisfy [P]. *)
Definition extends {G DB} (P : Event → Prop) (w w' : World G DB) : Prop :=
  ∃ evs, log w' = log w ++ evs ∧ Forall P evs.

(** The transaction bookkeeping of the connection is the same. *)
Definition same_tx {G DB} (w w' : World G DB) : Prop :=
  tx (conn w') = tx (conn w)
  ∧ needs_rollback (conn w') = needs_rollback (conn w).

Definition is_assign (ev : Event) : Prop :=
  match ev with
  | EvAssignKey _ => True
  | _ => False
  end.

Definition is_insert (ev : Event) : Prop :=
  match ev with
  | EvInsert _ _ _ _ _ _ => True
  | _ => False
  end.

(** The bulk inserts among the calls: call site and instances. *)
Definition insert_calls (evs : list Event) : list (Group * list loc) :=
  omap (λ ev, match ev with
              | EvInsert site objs _ _ _ _ => Some (site, objs)
              | _ => None
              end) evs.

(** A bulk insert was handed the batch size [n], and at the call site
    for instances with keys it was given a chunk of at most [n]
    instances. *)
Definition uses_batch_size (n : positive) (ev : Event) : Prop :=
  match ev with
  | EvInsert site objs _ batch_size _ _ =>
      batch_size = Z.pos n
      ∧ (site = HasKey → (0 < length objs ≤ Pos.to_nat n)%nat)
  | _ => True
  end.

(** A bulk insert at the given call site returned as many rows as it was
    given instances. *)
Definition row_count_matches (site : Group) (ev : Event) : Prop :=
  match ev with
  | EvInsert site' objs _ _ _ (Some n) => site' = site → n = length objs
  | _ => True
  end.

(** A call gets past the checks that come before any work: the batch
    size, if given, is positive, no parent model has another concrete
    model, the list is not empty and the resolver accepts the conflict
    options. *)
Definition passes_checks (connections : string → DatabaseFeatures)
    (self : QuerySet) (objs : list loc) (batch_size : option Z)
    (ignore_conflicts update_conflicts : bool)
    (update_fields unique_fields : option (list string)) : Prop :=
  (∀ b, batch_size = Some b → 0 < b)
  ∧ Forall (λ parent, parent = concrete_model (_meta self))
           (get_parent_list (_meta self))
  ∧ objs ≠ []
  ∧ is_ok (spanner_check_bulk_create_options connections self ignore_conflicts
             update_conflicts update_fields unique_fields) = true.

(** A bulk insert that raised. *)
Definition insert_failed (ev : Event) : Prop :=
  match ev with
  | EvInsert _ _ _ _ _ None => True
  | _ => False
  end.

(** A bulk insert was handed the conflict policy [on_conflict] and the
    fields of its call site: all the concrete fields for instances with
    keys, the concrete fields that are not [AutoField]s for instances
    without. *)
Definition insert_arguments (self : QuerySet) (on_conflict : option OnConflict)
    (ev : Event) : Prop :=
  match ev with
  | EvInsert site _ fields _ on_conflict' _ =>
      on_conflict' = on_conflict
      ∧ fields = match site with
                 | HasKey => concrete_fields (_meta self)
                 | LacksKey =>
                     filter (λ f, ¬ auto_field f) (concrete_fields (_meta self))
                 end
  | _ => True
  end.

(** What a [JSONField] is handed as a value: a plain [dict], a
    [JsonObject] (a subclass of [dict]) or anything else. [D] is what a
    dictionary holds, [O] the other values. *)
Inductive JsonValue (D O : Type) : Type :=
| PlainDict (d : D)
| JsonObject (d : D)
| NotDict (o : O).
Arguments PlainDict {D O} d.
Arguments JsonObject {D O} d.
Arguments NotDict {D O} o.

(** [isinstance(value, dict)] and [isinstance(value, JsonObject)] *)
Definition is_dict {D O} (value : JsonValue D O) : bool :=
  match value with
  | PlainDict _ | JsonObject _ => true
  | NotDict _ => false
  end.

Definition is_JsonObject {D O} (value : JsonValue D O) : bool :=
  match value with
  | JsonObject _ => true
  | _ => false
  end.

(** [JsonObject(value)] for a dictionary: a [JsonObject] with its items. *)
Definition to_JsonObject {D O} (value : JsonValue D O) : JsonValue D O :=
  match value with
  | PlainDict d | JsonObject d => JsonObject d
  | NotDict o => value
  end.

(** [JSONField.get_prep_value], lines 286-291. *)
Definition get_prep_value {D O} (value : JsonValue D O) : JsonValue D O :=
  if negb (is_JsonObject value) && is_dict value
  then to_JsonObject value
  else value.

(** ** Comparing timestamps, lines 296-314

    [Obj] are the Python objects compared and [R] what the inherited
    [__eq__] answers, with its truth value; [old] is
    [getattr(DatetimeWithNanoseconds, "__eq__", None)], [same_type] is
    [type(self) is type(other)], [is_datetime] is
    [isinstance(other, datetime.datetime)]. *)
Section TimestampEq.
Context {Obj R : Type}.
Context (truth : R → bool).
Context (old_datetimewithnanoseconds_eq : option (Obj → Obj → R)).
Context (same_type : Obj → Obj → bool).
Context (is_datetime : Obj → bool).
Context (ctime : Obj → string).

Definition datetimewithnanoseconds_eq (self other : Obj) : bool :=
  let decided :=
    match old_datetimewithnanoseconds_eq with
    | Some old =>
        if truth (old self other) then Some true
        else if same_type self other then Some false
        else None
    | None => None
    end in
  match decided with
  | Some answer => answer
  | None =>
      if is_datetime other
      then bool_decide (ctime self = ctime other)
      else false
  end.

End TimestampEq.

(** [uuid4().int & 0x7FFFFFFFFFFFFFFF], with the 128-bit identifier as
    argument. *)
Definition gen_rand_int64 (uuid : Z) : Z := Z.land uuid 0x7FFFFFFFFFFFFFFF.

(** ** A small model to run the functions on

    A table with an automatic key [id] and a column [name]; the database
    holds rows as lists of values. *)
Module Singers.

Definition id_field : Field := mkField "id" true false true true.
Definition name_field : Field := mkField "name" true false false false.

Definition opts : Options :=
  mkOptions [id_field; name_field] [] id_field
    (λ name, if String.eqb name "id" then Some id_field
             else if String.eqb name "name" then Some name_field
             else None)
    "Singer" [].

Definition qs : QuerySet := mkQuerySet "default" opts.

(** Two parameters per statement at most, no conflict handling, no
    rows returned from a bulk insert. *)
Definition features : DatabaseFeatures := mkFeatures 2 false false false false.

(** The same backend claiming that it returns rows. *)
Definition returning_features : DatabaseFeatures :=
  mkFeatures 2 false false false true.

(** A backend that can update on conflict, given the unique fields. *)
Definition upsert_features : DatabaseFeatures :=
  mkFeatures 2 false true true false.

(** The generator of this module: the source hands out identifiers. *)
Definition random_key (g : Z) (o : Instance) : value * Z :=
  (VInt (gen_rand_int64 g), g + 1).

(** A key field without a default: the hook answers [None]. *)
Definition no_default (g : Z) (o : Instance) : value * Z := (VNone, g).

Definition no_related (h : Store) (obj : loc) : exn + Instance := inr (h obj).

Definition row (fields : list Field) (o : Instance) : list value :=
  (λ f, getattr o (attname f)) <$> fields.

(** Inserts every row and returns none. *)
Definition insert_all (d : list (list value)) (objs : list Instance)
    (fields : list Field) (batch_size : Z) (on_conflict : option OnConflict)
    (update_fields unique_fields : option (list string))
  : list (list value) * (exn + list (list value)) :=
  (d ++ (row fields <$> objs), inr []).

(** Inserts row after row, and fails on the first row whose name is
    already stored, keeping the rows written before it. *)
Fixpoint insert_unique_names (d : list (list value)) (objs : list Instance)
    (fields : list Field) (batch_size : Z) (on_conflict : option OnConflict)
    (update_fields unique_fields : option (list string))
  : list (list value) * (exn + list (list value)) :=
  match objs with
  | [] => (d, inr [])
  | o :: rest =>
      if existsb (λ r, bool_decide (getattr o "name" ∈ r)) d
      then (d, inl (DatabaseError 6))
      else insert_unique_names (d ++ [row fields o]) rest fields batch_size
                               on_conflict update_fields unique_fields
  end.

Definition new_singer (key name : value) : Instance :=
  mkInstance (<["id" := key]> (<["name" := name]> ∅)) true None.

(** Fresh singers without a key, and a store of singers with keys, the
    fourth of which has the name of the first. *)
Definition keyless : Store :=
  λ l, new_singer VNone (VStr (match l with
                               | O => "Ella" | S O => "Nina" | _ => "Etta"
                               end)).

Definition keyed : Store :=
  λ l, match l with
       | O => new_singer (VInt 1) (VStr "Ella")
       | S O => new_singer (VInt 2) (VStr "Nina")
       | S (S O) => new_singer (VInt 3) (VStr "Etta")
       | _ => new_singer (VInt 4) (VStr "Ella")
       end.

Definition world (h : Store) : World Z (list (list value)) :=
  mkWorld h 0 (mkConnection [] Autocommit false) [] false.

(** A call of [bulk_create] on this model, without conflict handling. *)
Definition run (features : DatabaseFeatures)
    (generator : Z → Instance → value * Z)
    (executor : list (list value) → list Instance → list Field → Z →
                option OnConflict → option (list string) →
                option (list string) →
                list (list value) * (exn + list (list value)))
    (objs : list loc) (batch_size : option Z) (h : Store)
  : World Z (list (list value)) * (exn + list loc) :=
  spanner_bulk_create (λ _, features) generator no_related executor qs objs
                      batch_size false false None None (world h).

End Singers.

(** * Properties *)

(** ** Pure facts about the helpers *)

Section Helpers.
Context {A : Type}.
Implicit Types (l : list A) (p : A → bool).

Lemma partition_acc p l (acc : list A * list A) :
  foldl (λ results item,
           if p item
           then (results.1, results.2 ++ [item])
           else (results.1 ++ [item], results.2)) acc l
  = (acc.1 ++ filter (λ x, ¬ p x) l, acc.2 ++ filter (λ x, p x) l).
Proof.
  revert acc. induction l as [|x l IH]; intros [a b]; simpl.
  - by rewrite !app_nil_r.
  - rewrite IH, !filter_cons. destruct (p x); simpl;
      by rewrite <- app_assoc.
Qed.

Lemma partition_filter p l :
  partition p l = (filter (λ x, ¬ p x) l, filter (λ x, p x) l).
Proof. unfold partition. by rewrite partition_acc. Qed.

Lemma restore_positions_filter p l :
  restore_positions (p <$> l) (filter (λ x, ¬ p x) l) (filter (λ x, p x) l) = l.
Proof.
  induction l as [|x l IH]; [done|].
  rewrite fmap_cons, !filter_cons. destruct (p x); simpl; by rewrite IH.
Qed.

Lemma filter_all (P : A → Prop) `{!∀ x, Decision (P x)} l :
  Forall P l → filter P l = l.
Proof.
  induction 1 as [|x l Hx _ IH]; [done|].
  by rewrite filter_cons_True, IH.
Qed.

Lemma filter_none (P : A → Prop) `{!∀ x, Decision (P x)} l :
  Forall (λ x, ¬ P x) l → filter P l = [].
Proof.
  induction 1 as [|x l Hx _ IH]; [done|].
  by rewrite filter_cons_False.
Qed.

Lemma elem_of_concat (x : A) (c : list A) (cs : list (list A)) :
  x ∈ c → c ∈ cs → x ∈ concat cs.
Proof.
  intros Hx Hc. induction Hc as [c cs|c c' cs _ IH]; simpl;
    apply elem_of_app; auto.
Qed.

End Helpers.

Section Chunking.
Context {A : Type}.
Implicit Types (l : list A).

(** A slice with non-negative bounds is a [take] of a [drop]. *)
Lemma slice_take_drop l (lo n : Z) :
  0 ≤ lo → 0 ≤ n →
  slice l lo (lo + n) = take (Z.to_nat n) (drop (Z.to_nat lo) l).
Proof.
  intros Hlo Hn. unfold slice, slice_index.
  destruct (Z.ltb_spec lo 0) as [?|_]; [lia|].
  destruct (Z.ltb_spec (lo + n) 0) as [?|_]; [lia|].
  destruct (Z_le_gt_dec (Z.of_nat (length l)) lo) as [Hge|Hlt].
  - rewrite !drop_ge by lia. by rewrite !take_nil.
  - replace (Z.to_nat (Z.max 0 (Z.min (Z.of_nat (length l)) lo)))
      with (Z.to_nat lo) by lia.
    destruct (Z_le_gt_dec (lo + n) (Z.of_nat (length l))) as [Hfit|Hover].
    + f_equal. lia.
    + by rewrite !take_ge by (rewrite length_drop; lia).
Qed.

Lemma concat_take_drop l (n m : nat) :
  concat ((λ k : nat, take n (drop (k * n) l)) <$> seq 0 m) = take (m * n) l.
Proof.
  induction m as [|m IH]; [done|].
  rewrite seq_S, fmap_app, concat_app, IH. simpl.
  rewrite app_nil_r, take_take_drop. f_equal. lia.
Qed.

(** With a positive batch size the comprehension never raises, and its
    chunks are the successive windows of [batch_size] elements. *)
Lemma chunks_pos l (p : positive) :
  chunks l (Z.pos p)
  = inr ((λ k : nat, take (Pos.to_nat p) (drop (k * Pos.to_nat p) l))
           <$> seq 0 (Z.to_nat ((Z.of_nat (length l) + Z.pos p - 1) / Z.pos p))).
Proof.
  unfold chunks, range. simpl.
  rewrite Z.sub_0_r. f_equal. rewrite <- list_fmap_compose.
  apply list_fmap_ext. intros _ k _. simpl.
  rewrite slice_take_drop by lia.
  replace (Z.to_nat (0 + Z.of_nat k * Z.pos p)) with (k * Pos.to_nat p)%nat by lia.
  done.
Qed.

Lemma chunks_count_covers (len : nat) (p : positive) :
  (len ≤ Z.to_nat ((Z.of_nat len + Z.pos p - 1) / Z.pos p) * Pos.to_nat p)%nat.
Proof.
  pose proof (Z.mul_succ_div_gt (Z.of_nat len + Z.pos p - 1) (Z.pos p)) as H.
  assert (0 ≤ (Z.of_nat len + Z.pos p - 1) / Z.pos p)
    by (apply Z.div_pos; lia).
  nia.
Qed.

Lemma chunks_count_tight (len k : nat) (p : positive) :
  (k < Z.to_nat ((Z.of_nat len + Z.pos p - 1) / Z.pos p))%nat →
  (k * Pos.to_nat p < len)%nat.
Proof.
  intros Hk.
  pose proof (Z.mul_div_le (Z.of_nat len + Z.pos p - 1) (Z.pos p)) as H.
  nia.
Qed.

Lemma chunks_concat l (p : positive) (cs : list (list A)) :
  chunks l (Z.pos p) = inr cs → concat cs = l.
Proof.
  rewrite chunks_pos. intros [= <-].
  rewrite concat_take_drop. apply take_ge, chunks_count_covers.
Qed.

Lemma chunks_sizes l (p : positive) (cs : list (list A)) :
  chunks l (Z.pos p) = inr cs →
  Forall (λ c, (0 < length c ≤ Pos.to_nat p)%nat) cs.
Proof.
  rewrite chunks_pos. intros [= <-].
  apply Forall_fmap, Forall_forall. intros k Hk. simpl.
  apply elem_of_seq in Hk as [_ Hk]. simpl in Hk.
  apply chunks_count_tight in Hk.
  rewrite length_take, length_drop. lia.
Qed.

Lemma chunks_total l (p : positive) : ∃ cs, chunks l (Z.pos p) = inr cs.
Proof. rewrite chunks_pos. eauto. Qed.

Lemma chunks_nil (p : positive) : chunks (@nil A) (Z.pos p) = inr [].
Proof.
  rewrite chunks_pos. simpl. rewrite Z.div_small by lia. done.
Qed.

Lemma chunks_length l (p : positive) (cs : list (list A)) :
  chunks l (Z.pos p) = inr cs →
  Z.of_nat (length cs) = (Z.of_nat (length l) + Z.pos p - 1) / Z.pos p.
Proof.
  rewrite chunks_pos. intros [= <-]. rewrite length_fmap, length_seq.
  rewrite Z2Nat.id; [done|]. apply Z.div_pos; lia.
Qed.

Lemma chunks_full l (p : positive) (cs : list (list A)) (i : nat) c :
  chunks l (Z.pos p) = inr cs →
  cs !! i = Some c → (S i < length cs)%nat → length c = Pos.to_nat p.
Proof.
  intros Hcs Hi Hlt. pose proof (chunks_length _ _ _ Hcs) as Hlen.
  rewrite chunks_pos in Hcs. injection Hcs as <-.
  rewrite list_lookup_fmap in Hi.
  destruct (seq _ _ !! i) as [k|] eqn:Hk; [|done].
  apply lookup_seq in Hk as [-> _]. simpl in Hi. injection Hi as <-.
  rewrite length_fmap, length_seq in Hlt.
  apply (chunks_count_tight (length l) (S i) p) in Hlt.
  rewrite length_take, length_drop. lia.
Qed.

End Chunking.

(** ** The conflict-policy resolver *)

Section Resolver.
Context (connections : string → DatabaseFeatures).
Implicit Types (self : QuerySet) (names : list string) (fs : list Field).

Lemma get_fields_resolved opts names :
  (∀ name, name ∈ names → is_Some (get_field opts name)) →
  ∃ fs, get_fields opts names = inr fs
        ∧ Forall2 (λ name f, get_field opts name = Some f) names fs.
Proof.
  induction names as [|name names IH]; intros Hall; simpl.
  - exists []. by split.
  - destruct (Hall name) as [f Hf]; [by left|]. rewrite Hf.
    destruct IH as (fs & -> & Hfs).
    { intros n Hn. apply Hall. by right. }
    exists (f :: fs). split; [done|]. by constructor.
Qed.

Lemma any_not_concrete_false fs :
  any_not_concrete fs = false
  ↔ Forall (λ f, concrete f = true ∧ many_to_many f = false) fs.
Proof.
  unfold any_not_concrete. induction fs as [|f fs IH]; simpl.
  - split; [constructor | done].
  - rewrite orb_false_iff, IH, Forall_cons.
    destruct (concrete f), (many_to_many f); simpl; intuition congruence.
Qed.

(** C8: whatever the other arguments and the capabilities of the
    backend, asking both to ignore and to update conflicts fails with
    the [ValueError] of the first check. *)
Theorem check_options_mutually_exclusive self update_fields unique_fields :
  spanner_check_bulk_create_options connections self true true
                                    update_fields unique_fields
  = inl (ValueError
           "ignore_conflicts and update_conflicts are mutually exclusive.").
Proof. reflexivity. Qed.

(** C9: on the update path that has got as far as the unique fields,
    the token ["pk"] is never looked up: when every other name of
    [unique_fields] resolves to a concrete field that is not
    many-to-many the policy is [UPDATE], and when every other name
    resolves and one of them resolves to a field that is not concrete
    or is many-to-many the call fails with the [ValueError] of that
    check. *)
Theorem check_options_unique_fields_pk self update_fields unique_fields
    update_fs :
  let features := connections (db self) in
  let opts := _meta self in
  supports_update_conflicts features = true →
  supports_update_conflicts_with_target features = true →
  truthy update_fields = true →
  get_fields opts (items update_fields) = inr update_fs →
  any_not_concrete update_fs = false →
  existsb primary_key update_fs = false →
  truthy unique_fields = true →
  (∀ name, name ∈ items unique_fields → name ≠ "pk" →
           is_Some (get_field opts name)) →
  ((∀ name f, name ∈ items unique_fields → name ≠ "pk" →
              get_field opts name = Some f →
              concrete f = true ∧ many_to_many f = false) →
   spanner_check_bulk_create_options connections self false true
                                     update_fields unique_fields
   = inr (Some UPDATE))
  ∧ ((∃ name f, name ∈ items unique_fields ∧ name ≠ "pk"
                ∧ get_field opts name = Some f
                ∧ (concrete f = false ∨ many_to_many f = true)) →
     spanner_check_bulk_create_options connections self false true
                                       update_fields unique_fields
     = inl (ValueError
              "bulk_create() can only be used with concrete fields in unique_fields.")).
Proof.
  intros features opts Hsup Htarget Hupd Hget Hconc Hpk Huniq Hres.
  unfold spanner_check_bulk_create_options. simpl.
  fold features opts. rewrite Hsup, Htarget, Hupd, Huniq. simpl.
  rewrite Hget, Hconc, Hpk.
  destruct (get_fields_resolved opts
              (filter (λ name, name ≠ "pk") (items unique_fields)))
    as (fs & -> & Hfs).
  { intros name [Hne Hin]%list_elem_of_filter. by apply Hres. }
  split.
  - intros Hgood.
    assert (any_not_concrete fs = false) as ->; [|done].
    apply any_not_concrete_false, Forall_forall. intros f Hf.
    destruct (proj1 (list_elem_of_lookup _ _) Hf) as [i Hi].
    destruct (Forall2_lookup_r _ _ _ _ _ Hfs Hi) as (name & Hname & Hnf).
    apply list_elem_of_lookup_2, list_elem_of_filter in Hname as [Hne Hin].
    by eapply Hgood.
  - intros (name & f & Hin & Hne & Hf & Hbad).
    destruct (any_not_concrete fs) eqn:Hany; [done|]. exfalso.
    apply any_not_concrete_false in Hany.
    assert (name ∈ filter (λ name, name ≠ "pk") (items unique_fields)) as Hin'
      by (by apply list_elem_of_filter).
    destruct (proj1 (list_elem_of_lookup _ _) Hin') as [i Hi].
    destruct (Forall2_lookup_l _ _ _ _ _ Hfs Hi) as (f' & Hf' & Hnf).
    rewrite Hf in Hnf. injection Hnf as <-.
    apply list_elem_of_lookup_2 in Hf'.
    rewrite Forall_forall in Hany. destruct (Hany _ Hf') as [? ?].
    destruct Hbad; congruence.
Qed.

(** *** The other answers of the resolver *)

Lemma get_fields_error opts names e :
  get_fields opts names = inl e →
  ∃ name, e = FieldDoesNotExist name ∧ name ∈ names
          ∧ get_field opts name = None.
Proof.
  induction names as [|name names IH]; simpl; [done|].
  destruct (get_field opts name) as [f|] eqn:Hf.
  - destruct (get_fields opts names) as [e'|fs]; [|done].
    intros [= <-]. destruct (IH eq_refl) as (n & ? & ? & ?).
    exists n. split; [done|]. split; [by right|done].
  - intros [= <-]. exists name. split; [done|]. split; [by left|done].
Qed.

Lemma get_fields_inr opts names fs :
  get_fields opts names = inr fs →
  Forall2 (λ name f, get_field opts name = Some f) names fs.
Proof.
  revert fs. induction names as [|name names IH]; intros fs; simpl.
  - intros [= <-]. constructor.
  - destruct (get_field opts name) as [f|] eqn:Hf; [|done].
    destruct (get_fields opts names) as [e'|fs']; [done|].
    intros [= <-]. constructor; [done|]. by apply IH.
Qed.

(** X1: no conflict handling is resolved exactly when none was asked for. *)
Theorem check_options_none_iff self ignore_conflicts update_conflicts
    update_fields unique_fields :
  spanner_check_bulk_create_options connections self ignore_conflicts
    update_conflicts update_fields unique_fields = inr None
  ↔ ignore_conflicts = false ∧ update_conflicts = false.
Proof.
  unfold spanner_check_bulk_create_options. split.
  - destruct ignore_conflicts, update_conflicts; simpl; try done;
      repeat case_match; done.
  - by intros [-> ->].
Qed.

(** X2: conflicts are ignored exactly when only that was asked for and the
    backend can do it. *)
Theorem check_options_ignore_iff self ignore_conflicts update_conflicts
    update_fields unique_fields :
  spanner_check_bulk_create_options connections self ignore_conflicts
    update_conflicts update_fields unique_fields = inr (Some IGNORE)
  ↔ ignore_conflicts = true ∧ update_conflicts = false
    ∧ supports_ignore_conflicts (connections (db self)) = true.
Proof.
  unfold spanner_check_bulk_create_options. split.
  - destruct ignore_conflicts, update_conflicts; simpl; try done;
      repeat case_match; try done.
    intros _. by destruct (supports_ignore_conflicts _).
  - intros (-> & -> & Hs). simpl. by rewrite Hs.
Qed.

(** X3: what an [UPDATE] answer guarantees: only updating was asked for, the
    backend can do it, there are fields to update, unique fields are
    given exactly when the backend takes a conflict target, every field
    to update exists, is concrete, is not many-to-many and is not a
    primary key, and every unique field other than ["pk"] exists, is
    concrete and is not many-to-many. *)
Theorem check_options_update_sound self ignore_conflicts update_conflicts
    update_fields unique_fields :
  let features := connections (db self) in
  let opts := _meta self in
  spanner_check_bulk_create_options connections self ignore_conflicts
    update_conflicts update_fields unique_fields = inr (Some UPDATE) →
  ignore_conflicts = false ∧ update_conflicts = true
  ∧ supports_update_conflicts features = true
  ∧ truthy update_fields = true
  ∧ truthy unique_fields = supports_update_conflicts_with_target features
  ∧ (∀ name, name ∈ items update_fields →
       ∃ f, get_field opts name = Some f ∧ concrete f = true
            ∧ many_to_many f = false ∧ primary_key f = false)
  ∧ (∀ name, name ∈ items unique_fields → name ≠ "pk" →
       ∃ f, get_field opts name = Some f ∧ concrete f = true
            ∧ many_to_many f = false).
Proof.
  intros features opts. unfold spanner_check_bulk_create_options.
  fold features opts.
  destruct ignore_conflicts, update_conflicts; simpl; try done;
    [by destruct (supports_ignore_conflicts features)|].
  destruct (supports_update_conflicts features); simpl; [|done].
  destruct (truthy update_fields) eqn:Hupd; simpl; [|done].
  destruct (truthy unique_fields) eqn:Huniq,
           (supports_update_conflicts_with_target features) eqn:Htarget;
    simpl; try done.
  - destruct (get_fields opts (items update_fields)) as [e|ufs] eqn:Hufs;
      [done|].
    destruct (any_not_concrete ufs) eqn:Hconc; [done|].
    destruct (existsb primary_key ufs) eqn:Hpk; [done|].
    destruct (get_fields opts _) as [e|qfs] eqn:Hqfs in |- *; [done|].
    destruct (any_not_concrete qfs) eqn:Hqconc; [done|]. intros _.
    repeat split; try done.
    + intros name Hname.
      apply get_fields_inr in Hufs.
      apply list_elem_of_lookup in Hname as [i Hi].
      destruct (Forall2_lookup_l _ _ _ _ _ Hufs Hi) as (f & Hf & Hnf).
      apply list_elem_of_lookup_2 in Hf. exists f. split; [done|].
      apply any_not_concrete_false in Hconc. rewrite Forall_forall in Hconc.
      destruct (Hconc f Hf) as [? ?]. split; [done|]. split; [done|].
      destruct (primary_key f) eqn:Hp; [|done].
      assert (existsb primary_key ufs = true) as Hex; [|congruence].
      apply existsb_exists. exists f. split; [by apply list_elem_of_In|done].
    + intros name Hname Hne.
      apply get_fields_inr in Hqfs.
      assert (name ∈ filter (λ name, name ≠ "pk") (items unique_fields))
        as Hin by (by apply list_elem_of_filter).
      apply list_elem_of_lookup in Hin as [i Hi].
      destruct (Forall2_lookup_l _ _ _ _ _ Hqfs Hi) as (f & Hf & Hnf).
      apply list_elem_of_lookup_2 in Hf. exists f. split; [done|].
      apply any_not_concrete_false in Hqconc. rewrite Forall_forall in Hqconc.
      by apply Hqconc.
  - destruct (get_fields opts (items update_fields)) as [e|ufs] eqn:Hufs;
      [done|].
    destruct (any_not_concrete ufs) eqn:Hconc; [done|].
    destruct (existsb primary_key ufs) eqn:Hpk; [done|]. intros _.
    repeat split; try done.
    + intros name Hname.
      apply get_fields_inr in Hufs.
      apply list_elem_of_lookup in Hname as [i Hi].
      destruct (Forall2_lookup_l _ _ _ _ _ Hufs Hi) as (f & Hf & Hnf).
      apply list_elem_of_lookup_2 in Hf. exists f. split; [done|].
      apply any_not_concrete_false in Hconc. rewrite Forall_forall in Hconc.
      destruct (Hconc f Hf) as [? ?]. split; [done|]. split; [done|].
      destruct (primary_key f) eqn:Hp; [|done].
      assert (existsb primary_key ufs = true) as Hex; [|congruence].
      apply existsb_exists. exists f. split; [by apply list_elem_of_In|done].
    + intros name Hname. destruct unique_fields as [[|? ?]|]; simpl in *;
        try done; by apply elem_of_nil in Hname.
Qed.

(** X4: [NotSupportedError] is raised only for something the backend cannot
    do: ignoring conflicts, updating on conflict, or taking unique
    fields as the conflict target. *)
Theorem check_options_not_supported self ignore_conflicts update_conflicts
    update_fields unique_fields msg :
  let features := connections (db self) in
  spanner_check_bulk_create_options connections self ignore_conflicts
    update_conflicts update_fields unique_fields
  = inl (NotSupportedError msg) →
  (ignore_conflicts = true ∧ supports_ignore_conflicts features = false)
  ∨ (update_conflicts = true ∧ supports_update_conflicts features = false)
  ∨ (update_conflicts = true ∧ truthy unique_fields = true
     ∧ supports_update_conflicts_with_target features = false).
Proof.
  intros features. unfold spanner_check_bulk_create_options. fold features.
  destruct ignore_conflicts, update_conflicts; simpl; try done.
  - destruct (supports_ignore_conflicts features); simpl; [done|]. auto.
  - destruct (supports_update_conflicts features); simpl; [|auto].
    destruct (truthy update_fields); simpl; [|done].
    destruct (truthy unique_fields),
             (supports_update_conflicts_with_target features);
      simpl; try done; [| by auto |].
    + destruct (get_fields _ (items update_fields)) as [e|ufs] eqn:Hufs.
      { intros [= ->]. by apply get_fields_error in Hufs as (? & ? & _). }
      repeat case_match; try done.
      intros [= ->].
      match goal with H : get_fields _ _ = inl _ |- _ =>
        by apply get_fields_error in H as (? & ? & _) end.
    + destruct (get_fields _ (items update_fields)) as [e|ufs] eqn:Hufs.
      { intros [= ->]. by apply get_fields_error in Hufs as (? & ? & _). }
      repeat case_match; done.
Qed.

End Resolver.

(** ** The batch planner *)

Section Planner.
Implicit Types (opts : Options) (objs : list loc).

(** C5: the two groups are the instances with a key and those without,
    each in the order of the input, and putting them back position by
    position gives the input list. *)
Theorem partition_stable opts (h : Store) objs :
  let lacks := λ o, pk_is_None opts (h o) in
  let groups := partition lacks objs in
  groups.1 = filter (λ o, ¬ lacks o) objs
  ∧ groups.2 = filter (λ o, lacks o) objs
  ∧ groups.1 `sublist_of` objs
  ∧ groups.2 `sublist_of` objs
  ∧ restore_positions (lacks <$> objs) groups.1 groups.2 = objs.
Proof.
  intros lacks groups. unfold groups. rewrite partition_filter. simpl.
  repeat split; try apply sublist_filter.
  apply restore_positions_filter.
Qed.

(** C4, as the code has it: the group with keys is cut into windows of
    [max_query_params] instances, whatever the number of fields; the
    windows are not empty, hold at most that many instances, are the
    successive slices of the group, and together make up the group. *)
Theorem chunks_cover_group opts (h : Store) objs (n : positive) :
  let objs_with_pk := (partition (λ o, pk_is_None opts (h o)) objs).1 in
  ∃ cs, chunks objs_with_pk (Z.pos n) = inr cs
        ∧ concat cs = objs_with_pk
        ∧ Forall (λ c, (0 < length c ≤ Pos.to_nat n)%nat) cs
        ∧ ∀ (i : nat) c, cs !! i = Some c →
            c = take (Pos.to_nat n) (drop (i * Pos.to_nat n) objs_with_pk).
Proof.
  intros objs_with_pk.
  destruct (chunks_total objs_with_pk n) as [cs Hcs].
  exists cs. split; [done|].
  split; [by eapply chunks_concat|].
  split; [by eapply chunks_sizes|].
  intros i c Hi. rewrite chunks_pos in Hcs. injection Hcs as <-.
  rewrite list_lookup_fmap in Hi.
  destruct (seq _ _ !! i) as [k|] eqn:Hk; [|done].
  apply lookup_seq in Hk as [-> _]. simpl in Hi. by injection Hi as <-.
Qed.

(** X15: no group mixes instances with and without a key: the first group
    holds instances with a key only, the second instances without one
    only, every chunk cut from the first holds instances with a key
    only, and the two groups together are the input up to order. *)
Theorem partition_groups_uniform opts (h : Store) objs (n : positive) cs :
  let groups := partition (λ o, pk_is_None opts (h o)) objs in
  chunks groups.1 (Z.pos n) = inr cs →
  Forall (λ o, has_pk opts (h o)) groups.1
  ∧ Forall (λ o, get_pk opts (h o) = VNone) groups.2
  ∧ Forall (Forall (λ o, has_pk opts (h o))) cs
  ∧ groups.1 ++ groups.2 ≡ₚ objs.
Proof.
  intros groups. unfold groups. rewrite partition_filter. simpl. intros Hcs.
  assert (Forall (λ o, has_pk opts (h o))
                 (filter (λ o, ¬ pk_is_None opts (h o)) objs)) as Hkeyed.
  { apply Forall_forall. intros o [Ho _]%list_elem_of_filter.
    unfold has_pk, pk_is_None in *. intros Hnone. apply Ho.
    by apply bool_decide_pack. }
  split; [done|]. split; [|split].
  - apply Forall_forall. intros o [Ho _]%list_elem_of_filter.
    unfold pk_is_None in Ho. by apply bool_decide_unpack in Ho.
  - apply chunks_concat in Hcs. rewrite <- Hcs in Hkeyed.
    apply Forall_forall. intros c Hc. apply Forall_forall. intros o Ho.
    rewrite Forall_forall in Hkeyed. apply Hkeyed. by eapply elem_of_concat.
  - etrans; [apply Permutation_app_comm|].
    apply (filter_app_complement (λ o, pk_is_None opts (h o))).
Qed.

(** X16: the number of chunks cut from the instances with keys is the number
    of these instances divided by the batch size, rounded up, and every
    chunk but the last is full. *)
Theorem chunks_count_and_fill opts (h : Store) objs (n : positive) cs :
  let objs_with_pk := (partition (λ o, pk_is_None opts (h o)) objs).1 in
  chunks objs_with_pk (Z.pos n) = inr cs →
  Z.of_nat (length cs) = (Z.of_nat (length objs_with_pk) + Z.pos n - 1) / Z.pos n
  ∧ ∀ (i : nat) c, cs !! i = Some c → (S i < length cs)%nat →
      length c = Pos.to_nat n.
Proof.
  intros objs_with_pk Hcs. split; [by apply chunks_length|].
  intros i c Hi Hlt. by eapply chunks_full.
Qed.

End Planner.

(** ** Writing returned rows back *)

Section WriteBack.
Implicit Types (self : QuerySet) (objs : list loc) (h : Store)
               (rows : list (list value)).

Lemma write_back_without_pk_cons self o objs r rows h :
  write_back_without_pk self (o :: objs) (r :: rows) h
  = write_back_without_pk self objs rows
      (<[o := mark_saved (db self) (set_returned (_meta self) r (h o))]> h).
Proof. reflexivity. Qed.

(** An instance that is not paired with a returned row is not touched. *)
Lemma write_back_without_pk_frame self objs rows h (l : loc) :
  (∀ i : nat, objs !! i = Some l → (length rows ≤ i)%nat) →
  write_back_without_pk self objs rows h l = h l.
Proof.
  revert rows h. induction objs as [|o objs IH]; intros rows h Hl; [done|].
  destruct rows as [|r rows]; [done|].
  rewrite write_back_without_pk_cons, IH.
  - apply fn_lookup_insert_ne. intros ->.
    specialize (Hl 0%nat eq_refl). simpl in Hl. lia.
  - intros i Hi. specialize (Hl (S i) Hi). simpl in Hl. lia.
Qed.

(** Once marked as saved on this database, an instance stays so. *)
Lemma write_back_without_pk_saved self objs rows h (l : loc) :
  adding (h l) = false ∧ state_db (h l) = Some (db self) →
  adding (write_back_without_pk self objs rows h l) = false
  ∧ state_db (write_back_without_pk self objs rows h l) = Some (db self).
Proof.
  revert rows h. induction objs as [|o objs IH]; intros rows h Hl; [done|].
  destruct rows as [|r rows]; [done|].
  rewrite write_back_without_pk_cons. apply IH.
  destruct (decide (o = l)) as [->|Hne].
  - by rewrite fn_lookup_insert.
  - by rewrite fn_lookup_insert_ne.
Qed.

(** C10: in the write-back of the group without keys an instance is
    marked as saved, and bound to the queryset's database, at the
    positions that have a returned row; an instance all of whose
    positions are at or beyond the number of returned rows keeps its
    [adding] flag and its database binding. With no returned rows that
    is every instance. *)
Theorem write_back_without_pk_only_paired self objs rows h :
  let h' := write_back_without_pk self objs rows h in
  (∀ (i : nat) (l : loc), objs !! i = Some l → (i < length rows)%nat →
     adding (h' l) = false ∧ state_db (h' l) = Some (db self))
  ∧ (∀ l : loc, (∀ i : nat, objs !! i = Some l → (length rows ≤ i)%nat) →
       adding (h' l) = adding (h l) ∧ state_db (h' l) = state_db (h l)).
Proof.
  simpl. split.
  - revert rows h. induction objs as [|o objs IH]; intros rows h i l Hi Hlt;
      [done|].
    destruct rows as [|r rows]; [simpl in Hlt; lia|].
    rewrite write_back_without_pk_cons. destruct i as [|i].
    + injection Hi as ->. apply write_back_without_pk_saved.
      by rewrite fn_lookup_insert.
    + eapply IH; [exact Hi | simpl in Hlt; lia].
  - intros l Hl. by rewrite write_back_without_pk_frame.
Qed.

End WriteBack.

(** ** Runs of the three functions *)

Section Runs.
Context {G DB : Type}.
Context (connections : string → DatabaseFeatures).
Context (get_pk_value_on_save : G → Instance → value * G).
Context (_prepare_related_fields_for_save : Store → loc → exn + Instance).
Context (_batched_insert :
           DB → list Instance → list Field → Z → option OnConflict →
           option (list string) → option (list string) →
           DB * (exn + list (list value))).

Abbreviation World := (World G DB).
Abbreviation M := (M G DB).
Abbreviation assign := (assign_pk get_pk_value_on_save).
Abbreviation prepare_related :=
  (prepare_related_fields_for_save _prepare_related_fields_for_save).
Abbreviation prepare :=
  (spanner_prepare_for_bulk_create get_pk_value_on_save
                                   _prepare_related_fields_for_save).
Abbreviation insert := (batched_insert _batched_insert).
Abbreviation insert_with_pk := (insert_objs_with_pk _batched_insert).
Abbreviation insert_without_pk :=
  (insert_objs_without_pk connections _batched_insert).
Abbreviation check_options := (spanner_check_bulk_create_options connections).
Abbreviation bulk_create :=
  (spanner_bulk_create connections get_pk_value_on_save
                       _prepare_related_fields_for_save _batched_insert).

Implicit Types (w : World) (self : QuerySet) (objs : list loc).

(** *** Sequencing *)

Lemma for_each_cons {A} (x : A) xs (body : A → M unit) w :
  for_each (x :: xs) body w
  = match body x w with
    | (w', inr _) => for_each xs body w'
    | (w', inl e) => (w', inl e)
    end.
Proof. reflexivity. Qed.

(** A relation between worlds that every step of a loop respects is
    respected by the loop. *)
Lemma for_each_rel {A} (R : World → World → Prop) (xs : list A)
    (body : A → M unit) :
  (∀ w, R w w) →
  (∀ w1 w2 w3, R w1 w2 → R w2 w3 → R w1 w3) →
  (∀ x w, x ∈ xs → R w (body x w).1) →
  ∀ w, R w (for_each xs body w).1.
Proof.
  intros Hrefl Htrans. induction xs as [|x xs IH]; intros Hbody w.
  - apply Hrefl.
  - rewrite for_each_cons. pose proof (Hbody x w (list_elem_of_here _ _)) as Hx.
    destruct (body x w) as [w' [e|[]]]; simpl in *; [done|].
    eapply Htrans; [exact Hx | apply IH].
    intros y w'' Hy. apply Hbody. by right.
Qed.

Section Relations.
Context (R : World → World → Prop).
Context (R_refl : ∀ w, R w w).
Context (R_trans : ∀ w1 w2 w3, R w1 w2 → R w2 w3 → R w1 w3).

Lemma prepare_rel self objs :
  (∀ obj w, R w (assign self obj w).1) →
  (∀ obj w, R w (prepare_related obj w).1) →
  ∀ w, R w (prepare self objs w).1.
Proof.
  intros Hassign Hprep. apply for_each_rel; [done..|].
  intros obj w _. unfold bind, gets.
  destruct (pk_is_None (_meta self) (heap w obj)).
  - specialize (Hassign obj w).
    destruct (assign self obj w) as [w1 [e|[]]]; simpl in *; [done|].
    eapply R_trans; [exact Hassign | apply Hprep].
  - apply Hprep.
Qed.

Lemma insert_with_pk_rel self on_conflict update_fields unique_fields
    fields batch_size objs :
  (∀ cs chunk w, chunks objs batch_size = inr cs → chunk ∈ cs →
                 R w (insert HasKey chunk fields batch_size on_conflict
                             update_fields unique_fields w).1) →
  (∀ h w, R w (set_heap h w)) →
  ∀ w, R w (insert_with_pk self on_conflict update_fields unique_fields
                           fields batch_size objs w).1.
Proof.
  intros Hins Hheap w. unfold insert_objs_with_pk.
  destruct objs as [|o objs]; [apply R_refl|].
  unfold bind at 1, lift.
  destruct (chunks (o :: objs) batch_size) as [e|cs] eqn:Hcs; [apply R_refl|].
  apply for_each_rel; [done..|].
  intros chunk w1 Hchunk. unfold bind, modify.
  specialize (Hins cs chunk w1 eq_refl Hchunk).
  destruct (insert HasKey chunk fields batch_size on_conflict update_fields
                   unique_fields w1) as [w2 [e|rows]]; simpl in *; [done|].
  eapply R_trans; [exact Hins | apply Hheap].
Qed.

Lemma insert_without_pk_rel self on_conflict update_fields unique_fields
    fields batch_size objs :
  (∀ w, R w (insert LacksKey objs (filter (λ f, ¬ auto_field f) fields)
                    batch_size on_conflict update_fields unique_fields
                    w).1) →
  (∀ h w, R w (set_heap h w)) →
  ∀ w, R w (insert_without_pk self on_conflict update_fields unique_fields
                              fields batch_size objs w).1.
Proof.
  intros Hins Hheap w. unfold insert_objs_without_pk.
  destruct objs as [|o objs]; [apply R_refl|].
  unfold bind, modify, ret, raise. specialize (Hins w).
  destruct (insert LacksKey (o :: objs) _ batch_size on_conflict
                   update_fields unique_fields w) as [w2 [e|rows]];
    simpl in *; [done|].
  destruct (can_return_rows_from_bulk_insert _ && _); simpl;
    [destruct (bool_decide _); simpl|]; try done;
    (eapply R_trans; [exact Hins | apply Hheap]).
Qed.

End Relations.

(** *** The stages of a call *)

(** A call either stops before any work (a check fails, or there is
    nothing to insert), or fails while preparing the instances, or
    enters the atomic block, runs the inserts of the two groups in that
    order and leaves the block. *)
Lemma bulk_create_stages self objs batch_size ignore_conflicts
    update_conflicts update_fields unique_fields w0 w1 r :
  bulk_create self objs batch_size ignore_conflicts update_conflicts
              update_fields unique_fields w0 = (w1, r) →
  (w1 = w0 ∧ (is_ok r = false ∨ (objs = [] ∧ r = inr objs)))
  ∨ ∃ on_conflict,
      check_options self ignore_conflicts update_conflicts update_fields
                    unique_fields = inr on_conflict
      ∧ objs ≠ []
      ∧ ((∃ e, prepare self objs (set_for_write true w0) = (w1, inl e)
               ∧ r = inl e)
         ∨ ∃ wp wa ra,
             let opts := _meta self in
             let n := Z.pos (max_query_params (connections "default")) in
             let groups := partition (λ o, pk_is_None opts (heap wp o)) objs in
             prepare self objs (set_for_write true w0) = (wp, inr tt)
             ∧ insert_with_pk self on_conflict update_fields unique_fields
                              (concrete_fields opts) n groups.1
                              (enter_atomic (db self) false wp) = (wa, ra)
             ∧ ((∃ e, ra = inl e ∧ w1 = exit_atomic false wa ∧ r = inl e)
                ∨ (ra = inr tt
                   ∧ ∃ wb rb,
                       insert_without_pk self on_conflict update_fields
                                         unique_fields (concrete_fields opts)
                                         n groups.2 wa = (wb, rb)
                       ∧ w1 = exit_atomic (is_ok rb) wb
                       ∧ r = match rb with
                             | inl e => inl e
                             | inr _ => inr objs
                             end))).
Proof.
  unfold spanner_bulk_create.
  destruct (match batch_size with Some b => b <=? 0 | None => false end).
  { intros [= <- <-]. left. auto. }
  destruct (existsb _ _).
  { intros [= <- <-]. left. auto. }
  destruct objs as [|o objs'] eqn:Hobjs.
  { intros [= <- <-]. left. auto. }
  rewrite <- Hobjs. unfold bind at 1, lift.
  destruct (check_options self ignore_conflicts update_conflicts update_fields
                          unique_fields) as [e|on_conflict].
  { intros [= <- <-]. left. auto. }
  intros Hrun. right. exists on_conflict.
  split; [done|]. split; [by rewrite Hobjs|].
  unfold bind at 1, modify in Hrun. unfold bind at 1 in Hrun.
  destruct (prepare self objs (set_for_write true w0)) as [wp [e|[]]].
  { injection Hrun as <- <-. left. by exists e. }
  right. exists wp. unfold bind at 1, atomic in Hrun.
  unfold bind at 1 2, gets in Hrun. unfold connection_db in Hrun.
  simpl in Hrun.
  destruct (insert_with_pk self on_conflict update_fields unique_fields _ _ _
                           (enter_atomic (db self) false wp))
    as [wa [e|[]]] eqn:Hwith.
  { injection Hrun as <- <-. exists wa, (inl e).
    split; [done|]. split; [done|]. left. by exists e. }
  exists wa, (inr tt). split; [done|]. split; [done|]. right.
  split; [done|].
  destruct (insert_without_pk self on_conflict update_fields unique_fields _ _ _
                              wa) as [wb [e|[]]] eqn:Hwithout.
  - injection Hrun as <- <-. by exists wb, (inl e).
  - unfold ret in Hrun. injection Hrun as <- <-. by exists wb, (inr tt).
Qed.

(** *** The connection *)

Lemma same_tx_refl w : same_tx w w.
Proof. by split. Qed.

Lemma same_tx_trans w1 w2 w3 : same_tx w1 w2 → same_tx w2 w3 → same_tx w1 w3.
Proof. intros [? ?] [? ?]. split; congruence. Qed.

Lemma insert_same_tx site objs fields batch_size on_conflict update_fields
    unique_fields w :
  same_tx w (insert site objs fields batch_size on_conflict update_fields
                    unique_fields w).1.
Proof.
  unfold batched_insert. by destruct (_batched_insert _ _ _ _ _ _ _).
Qed.

(** Preparing the instances does not touch the connection. *)
Lemma prepare_conn self objs w : conn (prepare self objs w).1 = conn w.
Proof.
  apply (prepare_rel (λ w w', conn w' = conn w)); [done|congruence|..].
  - intros obj w'. unfold assign_pk.
    by destruct (get_pk_value_on_save _ _).
  - intros obj w'. unfold prepare_related_fields_for_save.
    by destruct (_prepare_related_fields_for_save _ _).
Qed.

(** Inside the atomic block only the contents of the database change. *)
Lemma insert_with_pk_same_tx self on_conflict update_fields unique_fields
    fields batch_size objs w :
  same_tx w (insert_with_pk self on_conflict update_fields unique_fields
                            fields batch_size objs w).1.
Proof.
  apply insert_with_pk_rel;
    [apply same_tx_refl | apply same_tx_trans | | done].
  intros. apply insert_same_tx.
Qed.

Lemma insert_without_pk_same_tx self on_conflict update_fields unique_fields
    fields batch_size objs w :
  same_tx w (insert_without_pk self on_conflict update_fields unique_fields
                               fields batch_size objs w).1.
Proof.
  apply insert_without_pk_rel;
    [apply same_tx_refl | apply same_tx_trans | | done].
  intros. apply insert_same_tx.
Qed.

(** Leaving, after a failure, a block that was entered without
    savepoint: the outermost block rolls back, a nested one marks the
    enclosing transaction for rollback. *)
Lemma atomic_exit_failed (c c' : Connection DB) :
  tx c' = tx (atomic_enter false c) →
  needs_rollback c' = needs_rollback (atomic_enter false c) →
  tx (atomic_exit false c') = tx c
  ∧ (data (atomic_exit false c') = data c
     ∨ (in_atomic_block c = true ∧ readable (atomic_exit false c') = None)).
Proof.
  destruct c as [d t nr], c' as [d' t' nr']. unfold atomic_enter, atomic_exit.
  simpl. destruct t as [|start sids]; simpl; intros -> ->; simpl; auto.
Qed.

(** *** The calls made *)

Lemma extends_refl P w : extends P w w.
Proof. exists []. by rewrite app_nil_r. Qed.

Lemma extends_trans P w1 w2 w3 :
  extends P w1 w2 → extends P w2 w3 → extends P w1 w3.
Proof.
  intros (evs1 & H1 & HP1) (evs2 & H2 & HP2). exists (evs1 ++ evs2).
  split; [by rewrite H2, H1, app_assoc | by apply Forall_app].
Qed.

Lemma extends_enter_atomic (P : Event → Prop) using_db savepoint w :
  P (EvAtomicEnter using_db savepoint) →
  extends P w (enter_atomic using_db savepoint w).
Proof.
  intros HP. exists [EvAtomicEnter using_db savepoint].
  split; [done|]. by constructor.
Qed.

Lemma extends_exit_atomic (P : Event → Prop) ok w :
  P (EvAtomicExit ok) → extends P w (exit_atomic ok w).
Proof.
  intros HP. exists [EvAtomicExit ok]. split; [done|]. by constructor.
Qed.

Lemma extends_same_log P w w' : log w' = log w → extends P w w'.
Proof.
  intros Hlog. exists []. by rewrite app_nil_r.
Qed.

Lemma extends_insert (P : Event → Prop) site objs fields batch_size on_conflict
    update_fields unique_fields w :
  (∀ returned, P (EvInsert site objs fields batch_size on_conflict returned)) →
  extends P w (insert site objs fields batch_size on_conflict update_fields
                      unique_fields w).1.
Proof.
  intros HP. unfold batched_insert.
  destruct (_batched_insert _ _ _ _ _ _ _) as [d r]. simpl.
  eexists [_]. split; [done|]. constructor; [apply HP | constructor].
Qed.

Lemma prepare_extends (P : Event → Prop) self objs w :
  (∀ obj, P (EvAssignKey obj)) → extends P w (prepare self objs w).1.
Proof.
  intros HP.
  apply prepare_rel; [apply extends_refl | apply extends_trans | |].
  - intros obj w'. unfold assign_pk. destruct (get_pk_value_on_save _ _).
    simpl. exists [EvAssignKey obj]. split; [done|].
    constructor; [apply HP | constructor].
  - intros obj w'. apply extends_same_log.
    unfold prepare_related_fields_for_save.
    by destruct (_prepare_related_fields_for_save _ _).
Qed.

(** Every call that leaves the function satisfies [P] as soon as the
    calls the function can make do. *)
Lemma bulk_create_extends (P : Event → Prop) self objs batch_size
    ignore_conflicts update_conflicts update_fields unique_fields w0 w1 r :
  let n := Z.pos (max_query_params (connections "default")) in
  (∀ obj, P (EvAssignKey obj)) →
  P (EvAtomicEnter (db self) false) →
  (∀ ok, P (EvAtomicExit ok)) →
  (∀ group cs chunk on_conflict returned,
     chunks group n = inr cs → chunk ∈ cs →
     P (EvInsert HasKey chunk (concrete_fields (_meta self)) n on_conflict
                 returned)) →
  (∀ group on_conflict returned,
     P (EvInsert LacksKey group
                 (filter (λ f, ¬ auto_field f) (concrete_fields (_meta self)))
                 n on_conflict returned)) →
  bulk_create self objs batch_size ignore_conflicts update_conflicts
              update_fields unique_fields w0 = (w1, r) →
  extends P w0 w1.
Proof.
  intros n Hassign Henter Hexit Hhas Hlacks Hrun.
  destruct (bulk_create_stages _ _ _ _ _ _ _ _ _ _ Hrun)
    as [[-> _]|(oc & _ & _ & [(e' & Hprep & _)|(wp & wa & ra & Hstages)])].
  - apply extends_refl.
  - pose proof (prepare_extends P self objs (set_for_write true w0) Hassign)
      as Hp.
    rewrite Hprep in Hp. exact Hp.
  - simpl in Hstages. destruct Hstages as (Hprep & Hwith & Hrest).
    pose proof (prepare_extends P self objs (set_for_write true w0) Hassign)
      as Hp.
    rewrite Hprep in Hp. simpl in Hp.
    assert (extends P wp wa) as Hwa.
    { eapply extends_trans; [apply extends_enter_atomic, Henter|].
      match type of Hwith with ?run = _ =>
        replace wa with (run.1) by (by rewrite Hwith) end.
      apply insert_with_pk_rel;
        [apply extends_refl | apply extends_trans | |].
      - intros cs chunk w Hcs Hchunk. apply extends_insert.
        intros returned. by eapply Hhas.
      - intros h w. by apply extends_same_log. }
    destruct Hrest as [(e' & -> & -> & _)|(-> & wb & rb & Hwithout & -> & Hr)].
    + eapply extends_trans; [exact Hp|].
      eapply extends_trans; [exact Hwa|]. apply extends_exit_atomic, Hexit.
    + eapply extends_trans; [exact Hp|].
      eapply extends_trans; [exact Hwa|].
      eapply extends_trans; [|apply extends_exit_atomic, Hexit].
      match type of Hwithout with ?run = _ =>
        replace wb with (run.1) by (by rewrite Hwithout) end.
      apply insert_without_pk_rel;
        [apply extends_refl | apply extends_trans | |].
      * intros w. apply extends_insert. intros returned. apply Hlacks.
      * intros h w. by apply extends_same_log.
Qed.

(** The calls up to the end of the inserts of the instances with keys. *)
Lemma with_pk_stage_extends (P : Event → Prop) self objs on_conflict
    update_fields unique_fields group w0 wp wa ra :
  let n := Z.pos (max_query_params (connections "default")) in
  (∀ obj, P (EvAssignKey obj)) →
  P (EvAtomicEnter (db self) false) →
  (∀ cs chunk returned,
     chunks group n = inr cs → chunk ∈ cs →
     P (EvInsert HasKey chunk (concrete_fields (_meta self)) n on_conflict
                 returned)) →
  prepare self objs w0 = (wp, inr tt) →
  insert_with_pk self on_conflict update_fields unique_fields
                 (concrete_fields (_meta self)) n group
                 (enter_atomic (db self) false wp) = (wa, ra) →
  extends P w0 wa.
Proof.
  intros n Hassign Henter Hhas Hprep Hwith.
  pose proof (prepare_extends P self objs w0 Hassign) as Hp.
  rewrite Hprep in Hp. simpl in Hp.
  eapply extends_trans; [exact Hp|].
  eapply extends_trans; [apply extends_enter_atomic, Henter|].
  match type of Hwith with ?run = _ =>
    replace wa with (run.1) by (by rewrite Hwith) end.
  apply insert_with_pk_rel; [apply extends_refl | apply extends_trans | |].
  - intros cs chunk w Hcs Hchunk. apply extends_insert.
    intros returned. by eapply Hhas.
  - intros h w. by apply extends_same_log.
Qed.

(** What the block for the instances without keys does: nothing for an
    empty group; otherwise one bulk insert of the whole group, the check
    of the number of returned rows, and the write-back. *)
Lemma insert_without_pk_run self on_conflict update_fields unique_fields
    fields batch_size objs w w' r :
  insert_without_pk self on_conflict update_fields unique_fields fields
                    batch_size objs w = (w', r) →
  (objs = [] ∧ w' = w ∧ r = inr tt)
  ∨ (objs ≠ []
     ∧ ∃ returned,
         log w' = log w ++ [EvInsert LacksKey objs
                                     (filter (λ f, ¬ auto_field f) fields)
                                     batch_size on_conflict returned]
         ∧ match returned with
           | None => is_ok r = false ∧ heap w' = heap w
           | Some n =>
               if can_return_rows_from_bulk_insert (connections (db self))
                  && bool_decide (on_conflict = None)
                  && negb (bool_decide (n = length objs))
               then r = inl AssertionError ∧ heap w' = heap w
               else r = inr tt
           end).
Proof.
  unfold insert_objs_without_pk. destruct objs as [|o objs'] eqn:Hobjs.
  { intros [= <- <-]. by left. }
  rewrite <- Hobjs. intros Hrun. right. split; [by rewrite Hobjs|].
  unfold bind at 1, batched_insert in Hrun.
  destruct (_batched_insert _ _ _ _ _ _ _) as [d [e|rows]].
  - injection Hrun as <- <-. by exists None.
  - exists (Some (length rows)). unfold bind, modify, ret, raise in Hrun.
    destruct (can_return_rows_from_bulk_insert _ && _); simpl in *.
    + destruct (bool_decide (length rows = length objs)); simpl in *;
        by injection Hrun as <- <-.
    + by injection Hrun as <- <-.
Qed.

Lemma app_cons_unique {A} (Q : A → Prop) (pre post l1 l2 : list A) (x y : A) :
  ¬ Q x → Forall Q l1 → Forall Q l2 →
  pre ++ x :: post = l1 ++ y :: l2 →
  pre = l1 ∧ x = y ∧ post = l2.
Proof.
  intros Hx H1 H2. revert pre. induction l1 as [|a l1 IH]; intros pre Heq.
  - destruct pre as [|p pre]; simpl in Heq.
    + by injection Heq as -> ->.
    + injection Heq as -> Heq. exfalso. apply Hx.
      rewrite Forall_forall in H2. apply H2. rewrite <- Heq.
      apply elem_of_app. right. by left.
  - apply Forall_cons in H1 as [Ha H1]. destruct pre as [|p pre]; simpl in Heq.
    + injection Heq as -> _. done.
    + injection Heq as -> Heq. destruct (IH H1 pre Heq) as (-> & -> & ->).
      done.
Qed.

Lemma app_cons_absent {A} (Q : A → Prop) (pre post l : list A) (x : A) :
  ¬ Q x → Forall Q l → pre ++ x :: post ≠ l.
Proof.
  intros Hx Hl Heq. apply Hx. rewrite Forall_forall in Hl. apply Hl.
  rewrite <- Heq. apply elem_of_app. right. by left.
Qed.

(** C7, as the code has it, for the one bulk insert of the instances
    without keys: when the backend says that it returns rows from a bulk
    insert and no conflict handling was asked for, a bulk insert of that
    group that returns a number of rows other than the number of
    instances makes the call fail with [AssertionError], and nothing
    follows it but the exit of the atomic block: no other insert, no
    second attempt. *)
Theorem bulk_create_row_count_asserted self objs batch_size update_fields
    unique_fields w0 w1 r pre post group fields n on_conflict (rows : nat) :
  can_return_rows_from_bulk_insert (connections (db self)) = true →
  spanner_bulk_create connections get_pk_value_on_save
    _prepare_related_fields_for_save _batched_insert self objs batch_size false false update_fields unique_fields w0
  = (w1, r) →
  log w1 = log w0 ++ pre
             ++ EvInsert LacksKey group fields n on_conflict (Some rows) :: post →
  rows ≠ length group →
  r = inl AssertionError ∧ post = [EvAtomicExit false].
Proof.
  intros Hcan Hrun Hlog Hrows.
  set (Q := row_count_matches LacksKey).
  assert (¬ Q (EvInsert LacksKey group fields n on_conflict (Some rows))) as HQ.
  { unfold Q. simpl. intros Hmatch. by apply Hrows, Hmatch. }
  destruct (bulk_create_stages _ _ _ _ _ _ _ _ _ _ Hrun)
    as [[-> _]|(oc & Hoc & _ & [(e' & Hprep & _)|(wp & wa & ra & Hstages)])].
  - exfalso. rewrite <- (app_nil_r (log w0)) in Hlog at 1.
    apply app_inv_head in Hlog. symmetry in Hlog.
    by eapply (app_cons_absent Q) in Hlog.
  - exfalso.
    pose proof (prepare_extends Q self objs (set_for_write true w0)) as Hp.
    rewrite Hprep in Hp. destruct Hp as (evs & Hevs & HQevs); [done|].
    simpl in Hevs. rewrite Hevs in Hlog. apply app_inv_head in Hlog.
    symmetry in Hlog. by eapply (app_cons_absent Q) in Hlog.
  - simpl in Hstages. destruct Hstages as (Hprep & Hwith & Hrest).
    injection Hoc as <-.
    assert (extends Q w0 wa) as (evs & Hevs & HQevs).
    { eapply (with_pk_stage_extends Q self objs None update_fields
                unique_fields _ (set_for_write true w0));
        [done..| |exact Hprep|exact Hwith].
      intros cs chunk [returned|] _ _; simpl; done. }
    destruct Hrest as [(e' & -> & -> & _)|(-> & wb & rb & Hwithout & -> & Hr)].
    + exfalso. simpl in Hlog. rewrite Hevs, <- app_assoc in Hlog.
      apply app_inv_head in Hlog. symmetry in Hlog.
      eapply (app_cons_absent Q) in Hlog; [done..|].
      apply Forall_app. split; [done|]. by constructor.
    + apply insert_without_pk_run in Hwithout
        as [(_ & -> & ->)|(_ & returned & Hwb & Hret)].
      * exfalso. simpl in Hlog. rewrite Hevs, <- app_assoc in Hlog.
        apply app_inv_head in Hlog. symmetry in Hlog.
        eapply (app_cons_absent Q) in Hlog; [done..|].
        apply Forall_app. split; [done|]. by constructor.
      * simpl in Hlog. rewrite Hwb, Hevs, <- !app_assoc in Hlog.
        apply app_inv_head in Hlog. simpl in Hlog. symmetry in Hlog.
        apply (app_cons_unique Q) in Hlog as (_ & Hev & Hpost);
          [|done..|by repeat constructor].
        injection Hev as Hgroup _ _ _ Hreturned. subst group returned.
        rewrite Hcan in Hret. simpl in Hret.
        rewrite bool_decide_eq_false_2 in Hret by done. simpl in Hret.
        destruct Hret as [-> _]. by subst r post.
Qed.

(** *** The order of the calls *)

(** One turn of the loop of [spanner_prepare_for_bulk_create]: it draws a
    key exactly when the instance has none, and touches no other
    instance. *)
Lemma prepare_step self obj w w' r :
  (let* o := gets (λ w, heap w obj) in
   (if pk_is_None (_meta self) o then assign self obj else ret tt) ;;;
   prepare_related obj) w = (w', r) →
  ∃ evs, log w' = log w ++ evs
         ∧ Forall is_assign evs
         ∧ (pk_is_None (_meta self) (heap w obj) → EvAssignKey obj ∈ evs)
         ∧ ∀ l : loc, l ≠ obj → heap w' l = heap w l.
Proof.
  unfold bind, gets, assign_pk, prepare_related_fields_for_save, ret.
  destruct (pk_is_None (_meta self) (heap w obj)).
  - destruct (get_pk_value_on_save _ _) as [v g]. simpl.
    destruct (_prepare_related_fields_for_save _ _) as [e|o];
      intros [= <- <-]; exists [EvAssignKey obj]; simpl;
      (split; [done|]); (split; [by repeat constructor|]);
      (split; [intros _; by left|]); intros l Hl;
      by rewrite ?fn_lookup_insert_ne.
  - destruct (_prepare_related_fields_for_save _ _) as [e|o];
      intros [= <- <-]; exists []; simpl; rewrite app_nil_r;
      (split; [done|]); (split; [constructor|]); (split; [done|]);
      intros l Hl; by rewrite ?fn_lookup_insert_ne.
Qed.

Lemma prepare_assigns self objs w w' :
  prepare self objs w = (w', inr tt) →
  ∃ assigns, log w' = log w ++ assigns
             ∧ Forall is_assign assigns
             ∧ ∀ l : loc, l ∈ objs → pk_is_None (_meta self) (heap w l) →
                 EvAssignKey l ∈ assigns.
Proof.
  unfold spanner_prepare_for_bulk_create. revert w.
  induction objs as [|obj objs IH]; intros w.
  - intros [= <-]. exists []. rewrite app_nil_r.
    split; [done|]. split; [constructor|]. by intros l ?%elem_of_nil.
  - rewrite for_each_cons.
    match goal with |- context [match ?step w with _ => _ end] =>
      destruct (step w) as [w1 [e|[]]] eqn:Hstep end; [done|].
    apply prepare_step in Hstep as (evs & Hlog1 & Hevs & Hobj & Hframe).
    intros (assigns & Hlog2 & Hassigns & Hrest)%IH.
    exists (evs ++ assigns). split; [by rewrite Hlog2, Hlog1, app_assoc|].
    split; [by apply Forall_app|].
    intros l Hl Hnone. apply elem_of_app.
    destruct (decide (l = obj)) as [->|Hne]; [left; by apply Hobj|].
    right. apply Hrest.
    + by apply elem_of_cons in Hl as [?|?].
    + by rewrite Hframe.
Qed.

Lemma insert_calls_app evs1 evs2 :
  insert_calls (evs1 ++ evs2) = insert_calls evs1 ++ insert_calls evs2.
Proof. apply omap_app. Qed.

Lemma insert_with_pk_calls self on_conflict update_fields unique_fields fields
    (n : positive) objs w w' r :
  insert_with_pk self on_conflict update_fields unique_fields fields (Z.pos n)
                 objs w = (w', r) →
  ∃ evs cs, log w' = log w ++ evs
            ∧ Forall is_insert evs
            ∧ chunks objs (Z.pos n) = inr cs
            ∧ insert_calls evs `prefix_of` ((λ c, (HasKey, c)) <$> cs)
            ∧ (is_ok r = true → insert_calls evs = (λ c, (HasKey, c)) <$> cs).
Proof.
  unfold insert_objs_with_pk. destruct objs as [|o objs'] eqn:Hobjs.
  { intros [= <- <-]. exists [], []. rewrite app_nil_r, chunks_nil. done. }
  rewrite <- Hobjs. unfold bind at 1, lift.
  destruct (chunks_total objs n) as [cs ->].
  intros Hloop.
  cut (∃ evs, log w' = log w ++ evs ∧ Forall is_insert evs
              ∧ insert_calls evs `prefix_of` ((λ c, (HasKey, c)) <$> cs)
              ∧ (is_ok r = true
                 → insert_calls evs = (λ c, (HasKey, c)) <$> cs)).
  { intros (evs & ? & ? & ? & ?). by exists evs, cs. }
  clear Hobjs. revert w Hloop. induction cs as [|c cs IH]; intros w.
  - intros [= <- <-]. exists []. by rewrite app_nil_r.
  - rewrite for_each_cons. unfold bind at 1, batched_insert at 1, modify.
    destruct (_batched_insert _ _ _ _ _ _ _) as [d [e|rows]].
    + intros [= <- <-]. eexists [_]. simpl. split; [done|].
      split; [by repeat constructor|]. split; [|done].
      apply prefix_cons, prefix_nil.
    + intros (evs & Hlog & Hevs & Hpre & Hcalls)%IH. simpl in Hlog.
      eexists (_ :: evs). split; [by rewrite Hlog, <- app_assoc|].
      split; [by constructor|]. simpl. split; [by apply prefix_cons|].
      intros Hok. by rewrite Hcalls.
Qed.

(** *** Calls that pass the checks, and calls that do not *)

Lemma batch_size_check (batch_size : option Z) :
  match batch_size with Some b => b <=? 0 | None => false end = false
  ↔ ∀ b, batch_size = Some b → 0 < b.
Proof.
  destruct batch_size as [b|]; [|by split].
  split.
  - intros Hb b' [= <-]. lia.
  - intros Hb. specialize (Hb b eq_refl). lia.
Qed.

Lemma parents_check self :
  existsb (λ parent, negb (String.eqb parent (concrete_model (_meta self))))
          (get_parent_list (_meta self)) = false
  ↔ Forall (λ parent, parent = concrete_model (_meta self))
           (get_parent_list (_meta self)).
Proof.
  induction (get_parent_list (_meta self)) as [|parent parents IH]; simpl.
  - by split.
  - rewrite orb_false_iff, IH, Forall_cons.
    destruct (String.eqb_spec parent (concrete_model (_meta self)));
      simpl; intuition congruence.
Qed.

(** A call that does not pass the checks leaves the world as it is; a
    call that passes them prepares the instances and, unless that fails,
    goes through the stages of the atomic block. *)
Lemma bulk_create_cases self objs batch_size ignore_conflicts
    update_conflicts update_fields unique_fields w0 w1 r :
  bulk_create self objs batch_size ignore_conflicts update_conflicts
              update_fields unique_fields w0 = (w1, r) →
  (¬ passes_checks connections self objs batch_size ignore_conflicts
       update_conflicts update_fields unique_fields
   ∧ w1 = w0)
  ∨ (passes_checks connections self objs batch_size ignore_conflicts
       update_conflicts update_fields unique_fields
     ∧ ∃ on_conflict,
         check_options self ignore_conflicts update_conflicts update_fields
                       unique_fields = inr on_conflict
         ∧ ((∃ e, prepare self objs (set_for_write true w0) = (w1, inl e)
                  ∧ r = inl e)
            ∨ ∃ wp wa ra,
                let opts := _meta self in
                let n := Z.pos (max_query_params (connections "default")) in
                let groups :=
                  partition (λ o, pk_is_None opts (heap wp o)) objs in
                prepare self objs (set_for_write true w0) = (wp, inr tt)
                ∧ insert_with_pk self on_conflict update_fields unique_fields
                                 (concrete_fields opts) n groups.1
                                 (enter_atomic (db self) false wp) = (wa, ra)
                ∧ ((∃ e, ra = inl e ∧ w1 = exit_atomic false wa ∧ r = inl e)
                   ∨ (ra = inr tt
                      ∧ ∃ wb rb,
                          insert_without_pk self on_conflict update_fields
                                            unique_fields (concrete_fields opts)
                                            n groups.2 wa = (wb, rb)
                          ∧ w1 = exit_atomic (is_ok rb) wb
                          ∧ r = match rb with
                                | inl e => inl e
                                | inr _ => inr objs
                                end)))).
Proof.
  unfold spanner_bulk_create.
  destruct (match batch_size with Some b => b <=? 0 | None => false end)
    eqn:Hbatch.
  { intros [= <- <-]. left. split; [|done].
    intros (Hb%batch_size_check & _). congruence. }
  destruct (existsb _ _) eqn:Hparents.
  { intros [= <- <-]. left. split; [|done].
    intros (_ & Hp%parents_check & _). congruence. }
  destruct objs as [|o objs'] eqn:Hobjs.
  { intros [= <- <-]. left. split; [|done]. by intros (_ & _ & ? & _). }
  rewrite <- Hobjs. unfold bind at 1, lift.
  destruct (check_options self ignore_conflicts update_conflicts update_fields
                          unique_fields) as [e|on_conflict] eqn:Hcheck.
  { intros [= <- <-]. left. split; [|done].
    intros (_ & _ & _ & Hok). by rewrite Hcheck in Hok. }
  intros Hrun. right. split.
  { split; [by apply batch_size_check|]. split; [by apply parents_check|].
    split; [by rewrite Hobjs|]. by rewrite Hcheck. }
  exists on_conflict. split; [done|].
  unfold bind at 1, modify in Hrun. unfold bind at 1 in Hrun.
  destruct (prepare self objs (set_for_write true w0)) as [wp [e|[]]].
  { injection Hrun as <- <-. left. by exists e. }
  right. exists wp. unfold bind at 1, atomic in Hrun.
  unfold bind at 1 2, gets in Hrun. unfold connection_db in Hrun.
  simpl in Hrun.
  destruct (insert_with_pk self on_conflict update_fields unique_fields _ _ _
                           (enter_atomic (db self) false wp))
    as [wa [e|[]]] eqn:Hwith.
  { injection Hrun as <- <-. exists wa, (inl e).
    split; [done|]. split; [done|]. left. by exists e. }
  exists wa, (inr tt). split; [done|]. split; [done|]. right.
  split; [done|].
  destruct (insert_without_pk self on_conflict update_fields unique_fields _ _ _
                              wa) as [wb [e|[]]] eqn:Hwithout.
  - injection Hrun as <- <-. by exists wb, (inl e).
  - unfold ret in Hrun. injection Hrun as <- <-. by exists wb, (inr tt).
Qed.

Lemma insert_calls_assigns evs : Forall is_assign evs → insert_calls evs = [].
Proof.
  induction 1 as [|ev evs Hev _ IH]; [done|].
  by destruct ev.
Qed.

(** The calls of a call that passes the checks and prepares its
    instances. *)
Lemma bulk_create_shape self objs batch_size ignore_conflicts
    update_conflicts update_fields unique_fields w0 w1 r wp :
  passes_checks connections self objs batch_size ignore_conflicts
    update_conflicts update_fields unique_fields →
  prepare self objs (set_for_write true w0) = (wp, inr tt) →
  bulk_create self objs batch_size ignore_conflicts update_conflicts
              update_fields unique_fields w0 = (w1, r) →
  ∃ assigns inserts cs,
    let opts := _meta self in
    let groups := partition (λ o, pk_is_None opts (heap wp o)) objs in
    let planned :=
      ((λ c, (HasKey, c)) <$> cs)
        ++ match groups.2 with
           | [] => []
           | _ :: _ => [(LacksKey, groups.2)]
           end in
    log wp = log w0 ++ assigns
    ∧ log w1 = log w0 ++ assigns ++ [EvAtomicEnter (db self) false]
                 ++ inserts ++ [EvAtomicExit (is_ok r)]
    ∧ Forall is_assign assigns
    ∧ (∀ l : loc, l ∈ objs → pk_is_None opts (heap w0 l) →
         EvAssignKey l ∈ assigns)
    ∧ Forall is_insert inserts
    ∧ chunks groups.1 (Z.pos (max_query_params (connections "default")))
      = inr cs
    ∧ insert_calls inserts `prefix_of` planned
    ∧ (is_ok r = true → insert_calls inserts = planned).
Proof.
  intros Hchecks Hprep Hrun.
  destruct (bulk_create_cases _ _ _ _ _ _ _ _ _ _ Hrun)
    as [[? _]|(_ & oc & _ & [(e' & Hprep' & _)|(wp' & wa & ra & Hstages)])];
    [done|congruence|].
  simpl in Hstages. destruct Hstages as (Hprep' & Hwith & Hrest).
  rewrite Hprep in Hprep'. injection Hprep' as <-.
  destruct (prepare_assigns _ _ _ _ Hprep) as (assigns & Hlogp & Hassigns & Hall).
  destruct (insert_with_pk_calls _ _ _ _ _ _ _ _ _ _ Hwith)
    as (evs1 & cs & Hlog1 & Hevs1 & Hcs & Hpre1 & Hcalls1).
  simpl in Hlogp, Hlog1.
  destruct Hrest as [(e' & -> & -> & ->)|(-> & wb & rb & Hwithout & -> & Hr)].
  - exists assigns, evs1, cs. simpl.
    rewrite Hlog1, Hlogp, <- !app_assoc.
    split; [done|]. split; [done|]. split; [done|].
    split; [done|]. split; [done|]. split; [done|].
    split; [by apply prefix_app_r|done].
  - specialize (Hcalls1 eq_refl).
    assert (is_ok r = is_ok rb) as -> by (subst r; by destruct rb).
    apply insert_without_pk_run in Hwithout
      as [(Hnil & -> & _)|(Hne & returned & Hlog2 & _)].
    + exists assigns, evs1, cs. simpl.
      rewrite Hlog1, Hlogp, Hnil, app_nil_r, <- !app_assoc, Hcalls1.
      by repeat split.
    + eexists assigns, (evs1 ++ [_]), cs.
      simpl. rewrite Hlog2, Hlog1, Hlogp, <- !app_assoc.
      split; [done|]. split; [reflexivity|].
      split; [done|]. split; [done|].
      split; [apply Forall_app; split; [done|]; by repeat constructor|].
      split; [done|].
      rewrite insert_calls_app, Hcalls1. simpl.
      by destruct ((partition _ objs).2).
Qed.


(** C3, as the code has it: whatever batch size the caller asked for,
    every bulk insert of a call is handed the maximum number of query
    parameters of the default connection as its batch size, and the
    instances with keys are cut into chunks by that number: the bulk
    inserts of a call that passes the checks and prepares its instances
    are those of the chunks cut by it, in order, then that of the
    instances without keys, up to an insert that fails. *)
Theorem bulk_create_batch_size_is_ceiling self objs batch_size
    ignore_conflicts update_conflicts update_fields unique_fields w0 w1 r :
  spanner_bulk_create connections get_pk_value_on_save
    _prepare_related_fields_for_save _batched_insert self objs batch_size
    ignore_conflicts update_conflicts update_fields unique_fields w0
  = (w1, r) →
  let n := max_query_params (connections "default") in
  ∃ evs,
    log w1 = log w0 ++ evs
    ∧ Forall (uses_batch_size n) evs
    ∧ (passes_checks connections self objs batch_size ignore_conflicts
         update_conflicts update_fields unique_fields →
       ∀ wp,
         spanner_prepare_for_bulk_create get_pk_value_on_save
           _prepare_related_fields_for_save self objs (set_for_write true w0)
         = (wp, inr tt) →
         let groups :=
           partition (λ o, pk_is_None (_meta self) (heap wp o)) objs in
         ∃ cs,
           let planned :=
             ((λ c, (HasKey, c)) <$> cs)
               ++ match groups.2 with
                  | [] => []
                  | _ :: _ => [(LacksKey, groups.2)]
                  end in
           chunks groups.1 (Z.pos n) = inr cs
           ∧ insert_calls evs `prefix_of` planned
           ∧ (is_ok r = true → insert_calls evs = planned)).
Proof.
  intros Hrun n.
  assert (extends (uses_batch_size n) w0 w1) as (evs & Hlog & Hevs).
  { eapply bulk_create_extends; [..|exact Hrun]; try done.
    intros group cs chunk on_conflict returned Hcs Hchunk. split; [done|].
    intros _. apply chunks_sizes in Hcs. rewrite Forall_forall in Hcs.
    by apply Hcs. }
  exists evs. split; [done|]. split; [done|].
  intros Hchecks wp Hprep. simpl.
  destruct (bulk_create_shape _ _ _ _ _ _ _ _ _ _ _ Hchecks Hprep Hrun)
    as (assigns & inserts & cs & _ & Hlog' & Hassigns & _ & _ & Hcs & Hpre
        & Hall).
  simpl in Hpre, Hall. exists cs. split; [done|].
  rewrite Hlog in Hlog'. apply app_inv_head in Hlog'. subst evs.
  rewrite !insert_calls_app, (insert_calls_assigns assigns) by done.
  simpl. by rewrite app_nil_r.
Qed.

(** *** Inserts that fail *)

Lemma insert_with_pk_ok_events self on_conflict update_fields unique_fields
    fields (n : positive) objs w w' :
  insert_with_pk self on_conflict update_fields unique_fields fields (Z.pos n)
                 objs w = (w', inr tt) →
  extends (λ ev, ¬ insert_failed ev) w w'.
Proof.
  unfold insert_objs_with_pk. destruct objs as [|o objs'] eqn:Hobjs.
  { intros [= <-]. apply extends_refl. }
  rewrite <- Hobjs. unfold bind at 1, lift.
  destruct (chunks_total objs n) as [cs ->]. clear Hobjs. revert w.
  induction cs as [|c cs IH]; intros w.
  - intros [= <-]. apply extends_refl.
  - rewrite for_each_cons. unfold bind at 1, batched_insert at 1, modify.
    destruct (_batched_insert _ _ _ _ _ _ _) as [d [e|rows]]; [done|].
    intros Hrest%IH. eapply extends_trans; [|exact Hrest].
    eexists [_]. split; [done|]. constructor; [|constructor]. by intros [].
Qed.

(** A call that returns has seen no bulk insert raise. *)
Lemma bulk_create_ok_events self objs batch_size ignore_conflicts
    update_conflicts update_fields unique_fields w0 w1 returned_objs :
  bulk_create self objs batch_size ignore_conflicts update_conflicts
              update_fields unique_fields w0 = (w1, inr returned_objs) →
  extends (λ ev, ¬ insert_failed ev) w0 w1.
Proof.
  intros Hrun. set (P := λ ev, ¬ insert_failed ev).
  destruct (bulk_create_stages _ _ _ _ _ _ _ _ _ _ Hrun)
    as [[-> _]|(oc & _ & _ & [(e' & _ & ?)|(wp & wa & ra & Hstages)])];
    [apply extends_refl|done|].
  simpl in Hstages. destruct Hstages as (Hprep & Hwith & Hrest).
  destruct Hrest as [(e' & _ & _ & ?)|(-> & wb & rb & Hwithout & -> & Hr)];
    [done|].
  destruct rb as [e'|[]]; [done|].
  pose proof (prepare_extends P self objs (set_for_write true w0)) as Hp.
  rewrite Hprep in Hp. simpl in Hp.
  eapply extends_trans; [apply Hp; by intros obj []|].
  eapply extends_trans; [apply extends_enter_atomic; by intros []|].
  eapply extends_trans; [by eapply insert_with_pk_ok_events|].
  eapply extends_trans; [|apply extends_exit_atomic; by intros []].
  apply insert_without_pk_run in Hwithout
    as [(_ & -> & _)|(_ & returned & Hlog & Hret)]; [apply extends_refl|].
  eexists [_]. split; [exact Hlog|]. constructor; [|constructor].
  destruct returned as [rows|]; [by intros []|]. by destruct Hret.
Qed.

(** C6: when a bulk insert of a call raises, whichever batch it is and
    however far the insert had got, the call fails; and when a call
    fails, the transaction bookkeeping of the connection is as it was
    before the call, and either the database holds exactly what it held
    before the call, or the call ran inside an enclosing transaction,
    which is now marked for rollback and answers no query. *)
Theorem bulk_create_failure_rolls_back self objs batch_size ignore_conflicts
    update_conflicts update_fields unique_fields w0 w1 r :
  spanner_bulk_create connections get_pk_value_on_save
    _prepare_related_fields_for_save _batched_insert self objs batch_size
    ignore_conflicts update_conflicts update_fields unique_fields w0
  = (w1, r) →
  (∀ evs, log w1 = log w0 ++ evs → Exists insert_failed evs →
     is_ok r = false)
  ∧ (is_ok r = false →
     tx (conn w1) = tx (conn w0)
     ∧ (data (conn w1) = data (conn w0)
        ∨ (in_atomic_block (conn w0) = true ∧ readable (conn w1) = None))).
Proof.
  intros Hrun. split.
  - intros evs Hlog Hfailed. destruct r as [e|returned_objs]; [done|].
    exfalso. destruct (bulk_create_ok_events _ _ _ _ _ _ _ _ _ _ Hrun)
      as (evs' & Hlog' & Hok).
    rewrite Hlog in Hlog'. apply app_inv_head in Hlog' as <-.
    apply Exists_exists in Hfailed as (ev & Hev & Hf).
    rewrite Forall_forall in Hok. by apply (Hok ev).
  - intros Hfail. destruct r as [e|?]; [|done]. clear Hfail.
    destruct (bulk_create_stages _ _ _ _ _ _ _ _ _ _ Hrun)
      as [[-> _]|(oc & _ & _ & [(e' & Hprep & _)|(wp & wa & ra & Hstages)])];
      [auto| |].
    + pose proof (prepare_conn self objs (set_for_write true w0)) as Hconn.
      rewrite Hprep in Hconn. simpl in Hconn. rewrite Hconn. auto.
    + simpl in Hstages. destruct Hstages as (Hprep & Hwith & Hrest).
      pose proof (prepare_conn self objs (set_for_write true w0)) as Hconn.
      rewrite Hprep in Hconn. simpl in Hconn.
      pose proof (insert_with_pk_same_tx self oc update_fields unique_fields
                    (concrete_fields (_meta self))
                    (Z.pos (max_query_params (connections "default")))
                    (partition (λ o, pk_is_None (_meta self) (heap wp o)) objs).1
                    (enter_atomic (db self) false wp)) as [Htx Hnr].
      rewrite Hwith in Htx, Hnr. simpl in Htx, Hnr. rewrite Hconn in Htx, Hnr.
      destruct Hrest as [(e' & -> & -> & _)|(-> & wb & rb & Hwithout & -> & Hr)].
      * simpl. by apply atomic_exit_failed.
      * destruct rb as [e'|[]]; [|done].
        pose proof (insert_without_pk_same_tx self oc update_fields
                      unique_fields (concrete_fields (_meta self))
                      (Z.pos (max_query_params (connections "default")))
                      (partition (λ o, pk_is_None (_meta self) (heap wp o))
                                 objs).2
                      wa) as [Htx' Hnr'].
        rewrite Hwithout in Htx', Hnr'. simpl in Htx', Hnr'.
        simpl. apply atomic_exit_failed; congruence.
Qed.

(** *** Keys and the [adding] flag *)

Lemma get_pk_set_pk opts o v : get_pk opts (set_pk opts o v) = v.
Proof.
  unfold get_pk, set_pk, getattr, setattr. simpl.
  by rewrite lookup_insert_eq.
Qed.

Lemma pk_is_None_false opts o : pk_is_None opts o = false → has_pk opts o.
Proof. unfold pk_is_None, has_pk. by intros ?%bool_decide_eq_false. Qed.

Lemma pk_is_None_has_pk opts o : has_pk opts o → pk_is_None opts o = false.
Proof. unfold pk_is_None, has_pk. intros ?. by apply bool_decide_eq_false. Qed.

(** A store updated instance by instance along a list: a property that
    every update keeps is kept, and a property that every update
    establishes and keeps holds of the instances of the list. *)
Lemma foldl_store_kept {X} (key : X → loc) (f : X → Instance → Instance)
    (P : Instance → Prop) (xs : list X) (h : Store) (l : loc) :
  (∀ x o, P o → P (f x o)) →
  P (h l) →
  P (foldl (λ h x, <[key x := f x (h (key x))]> h) h xs l).
Proof.
  intros Hkeep. revert h. induction xs as [|x xs IH]; intros h Hl; [done|].
  simpl. apply IH. destruct (decide (key x = l)) as [<-|Hne].
  - rewrite fn_lookup_insert. by apply Hkeep.
  - by rewrite fn_lookup_insert_ne.
Qed.

Lemma foldl_store_set {X} (key : X → loc) (f : X → Instance → Instance)
    (P : Instance → Prop) (xs : list X) (h : Store) (l : loc) :
  (∀ x o, P (f x o)) →
  l ∈ key <$> xs →
  P (foldl (λ h x, <[key x := f x (h (key x))]> h) h xs l).
Proof.
  intros Hset. revert h. induction xs as [|x xs IH]; intros h Hl.
  - by apply elem_of_nil in Hl.
  - simpl. rewrite fmap_cons in Hl.
    destruct (decide (l ∈ key <$> xs)) as [Hin|Hnin]; [by apply IH|].
    apply elem_of_cons in Hl as [->|?]; [|done].
    apply foldl_store_kept; [intros; apply Hset|].
    rewrite fn_lookup_insert. apply Hset.
Qed.

Lemma set_returned_except_pk_get_pk opts results o :
  get_pk opts (set_returned_except_pk opts results o) = get_pk opts o.
Proof.
  unfold set_returned_except_pk.
  generalize (zip results (db_returning_fields opts)). intros rfs.
  revert o. induction rfs as [|rf rfs IH]; intros o; simpl; [done|].
  rewrite IH. unfold field_ne.
  destruct (String.eqb_spec (attname rf.2) (attname (pk opts))) as [|Hne];
    simpl; [done|].
  unfold get_pk, getattr, setattr. simpl. by rewrite lookup_insert_ne.
Qed.

Lemma set_returned_except_pk_adding opts results o :
  adding (set_returned_except_pk opts results o) = adding o.
Proof.
  unfold set_returned_except_pk.
  generalize (zip results (db_returning_fields opts)). intros rfs.
  revert o. induction rfs as [|rf rfs IH]; intros o; simpl; [done|].
  rewrite IH. by destruct (field_ne _ _).
Qed.

(** The write-back for a chunk of instances with keys changes no key,
    marks every instance of the chunk as saved and leaves saved
    instances saved. *)
Lemma write_back_with_pk_get_pk self chunk rows (h : Store) (l : loc) :
  get_pk (_meta self) (write_back_with_pk self chunk rows h l)
  = get_pk (_meta self) (h l).
Proof.
  unfold write_back_with_pk.
  apply (foldl_store_kept id (λ _, mark_saved (db self))
           (λ o, get_pk (_meta self) o = get_pk (_meta self) (h l)));
    [done|].
  apply (foldl_store_kept fst
           (λ pr, set_returned_except_pk (_meta self) pr.2)
           (λ o, get_pk (_meta self) o = get_pk (_meta self) (h l)));
    [|done].
  intros pr o <-. apply set_returned_except_pk_get_pk.
Qed.

Lemma write_back_with_pk_adding self chunk rows (h : Store) (l : loc) :
  l ∈ chunk ∨ adding (h l) = false →
  adding (write_back_with_pk self chunk rows h l) = false.
Proof.
  unfold write_back_with_pk. intros [Hin|Hsaved].
  - apply (foldl_store_set id (λ _, mark_saved (db self))
             (λ o, adding o = false)); [done|].
    by rewrite list_fmap_id.
  - apply (foldl_store_kept id (λ _, mark_saved (db self))
             (λ o, adding o = false)); [done|].
    apply (foldl_store_kept fst
             (λ pr, set_returned_except_pk (_meta self) pr.2)
             (λ o, adding o = false)); [|done].
    intros pr o <-. apply set_returned_except_pk_adding.
Qed.

Lemma insert_heap site objs fields batch_size on_conflict update_fields
    unique_fields w :
  heap (insert site objs fields batch_size on_conflict update_fields
               unique_fields w).1 = heap w.
Proof. unfold batched_insert. by destruct (_batched_insert _ _ _ _ _ _ _). Qed.

Lemma insert_with_pk_saves self on_conflict update_fields unique_fields fields
    (n : positive) objs w w' :
  insert_with_pk self on_conflict update_fields unique_fields fields (Z.pos n)
                 objs w = (w', inr tt) →
  (∀ l : loc, get_pk (_meta self) (heap w' l) = get_pk (_meta self) (heap w l))
  ∧ (∀ l : loc, l ∈ objs ∨ adding (heap w l) = false →
       adding (heap w' l) = false).
Proof.
  unfold insert_objs_with_pk. destruct objs as [|o objs'] eqn:Hobjs.
  { intros [= <-]. split; [done|]. by intros l [?%elem_of_nil|?]. }
  rewrite <- Hobjs. unfold bind at 1, lift.
  destruct (chunks objs (Z.pos n)) as [e|cs] eqn:Hcs; [done|].
  apply chunks_concat in Hcs. rewrite <- Hcs. clear Hobjs Hcs.
  revert w. induction cs as [|c cs IH]; intros w.
  - intros [= <-]. split; [done|]. by intros l [?%elem_of_nil|?].
  - rewrite for_each_cons. unfold bind at 1, modify.
    pose proof (insert_heap HasKey c fields (Z.pos n) on_conflict update_fields
                            unique_fields w) as Hheap.
    destruct (insert HasKey c fields (Z.pos n) on_conflict update_fields
                     unique_fields w) as [w1 [e|rows]]; [done|].
    simpl in Hheap. intros [Hpk Hsaved]%IH. simpl in Hpk, Hsaved. split.
    + intros l. by rewrite Hpk, write_back_with_pk_get_pk, Hheap.
    + intros l Hl. apply Hsaved. simpl in Hl. rewrite elem_of_app in Hl.
      destruct Hl as [[Hc|Hcs]|Hold]; [|by left|].
      * right. apply write_back_with_pk_adding. by left.
      * right. apply write_back_with_pk_adding. right. by rewrite Hheap.
Qed.

Section KeysAssigned.
Context (self : QuerySet).
(** The key hook answers a key, and preparing the related fields of an
    instance does not take its key away. *)
Context (generator_gives_key :
           ∀ g o, (get_pk_value_on_save g o).1 ≠ VNone).
Context (related_keeps_key :
           ∀ (h : Store) (l : loc) o,
             _prepare_related_fields_for_save h l = inr o →
             has_pk (_meta self) (h l) → has_pk (_meta self) o).

Lemma prepare_step_has_pk obj w w' :
  (let* o := gets (λ w, heap w obj) in
   (if pk_is_None (_meta self) o then assign self obj else ret tt) ;;;
   prepare_related obj) w = (w', inr tt) →
  has_pk (_meta self) (heap w' obj)
  ∧ ∀ l : loc, has_pk (_meta self) (heap w l) → has_pk (_meta self) (heap w' l).
Proof.
  unfold bind, gets, assign_pk, prepare_related_fields_for_save, ret.
  destruct (pk_is_None (_meta self) (heap w obj)) eqn:Hnone.
  - pose proof (generator_gives_key (rng w) (heap w obj)) as Hkey.
    destruct (get_pk_value_on_save _ _) as [v g]. simpl in *.
    destruct (_prepare_related_fields_for_save _ _) as [e|o] eqn:Hrel; [done|].
    intros [= <-]. simpl.
    apply related_keeps_key in Hrel;
      [|rewrite fn_lookup_insert; unfold has_pk; by rewrite get_pk_set_pk].
    split; [by rewrite fn_lookup_insert|].
    intros l Hl. destruct (decide (obj = l)) as [<-|Hne].
    + by rewrite fn_lookup_insert.
    + by rewrite !fn_lookup_insert_ne.
  - apply pk_is_None_false in Hnone.
    destruct (_prepare_related_fields_for_save _ _) as [e|o] eqn:Hrel; [done|].
    intros [= <-]. simpl. apply related_keeps_key in Hrel; [|done].
    split; [by rewrite fn_lookup_insert|].
    intros l Hl. destruct (decide (obj = l)) as [<-|Hne].
    + by rewrite fn_lookup_insert.
    + by rewrite fn_lookup_insert_ne.
Qed.

Lemma prepare_has_pk objs w w' :
  prepare self objs w = (w', inr tt) →
  ∀ l : loc, l ∈ objs ∨ has_pk (_meta self) (heap w l) →
    has_pk (_meta self) (heap w' l).
Proof.
  unfold spanner_prepare_for_bulk_create. revert w.
  induction objs as [|obj objs IH]; intros w.
  - intros [= <-] l [?%elem_of_nil|?]; done.
  - rewrite for_each_cons.
    match goal with |- context [match ?step w with _ => _ end] =>
      destruct (step w) as [w1 [e|[]]] eqn:Hstep end; [done|].
    apply prepare_step_has_pk in Hstep as [Hobj Hkeep].
    intros Hrest l Hl. apply (IH _ Hrest).
    destruct Hl as [[->|?]%elem_of_cons|?]; auto.
Qed.

(** C1, as the code has it: when the key hook always answers a key and
    preparing the related fields keeps keys, a call on a list that is
    not empty and whose instances come without a key returns the list
    with every instance carrying a key and no longer marked as being
    added. *)
Theorem bulk_create_keys_and_saved objs batch_size ignore_conflicts
    update_conflicts update_fields unique_fields w0 w1 returned_objs :
  objs ≠ [] →
  (∀ l : loc, l ∈ objs → pk_is_None (_meta self) (heap w0 l)) →
  spanner_bulk_create connections get_pk_value_on_save
    _prepare_related_fields_for_save _batched_insert self objs batch_size ignore_conflicts update_conflicts
              update_fields unique_fields w0 = (w1, inr returned_objs) →
  returned_objs = objs
  ∧ Forall (λ l, has_pk (_meta self) (heap w1 l) ∧ adding (heap w1 l) = false)
           returned_objs.
Proof.
  intros Hobjs _ Hrun.
  destruct (bulk_create_stages _ _ _ _ _ _ _ _ _ _ Hrun)
    as [[_ [?|[? _]]]|(oc & _ & _ & [(e' & _ & ?)|(wp & wa & ra & Hstages)])];
    [done..|].
  simpl in Hstages. destruct Hstages as (Hprep & Hwith & Hrest).
  destruct Hrest as [(e' & _ & _ & ?)|(-> & wb & rb & Hwithout & -> & Hr)];
    [done|].
  destruct rb as [e'|[]]; [done|]. injection Hr as ->.
  split; [done|].
  pose proof (prepare_has_pk _ _ _ Hprep) as Hkeys.
  assert (filter (λ o, ¬ pk_is_None (_meta self) (heap wp o)) objs = objs)
    as Hall.
  { apply filter_all, Forall_forall. intros l Hl.
    rewrite pk_is_None_has_pk; [by intros []|]. apply Hkeys. by left. }
  assert (filter (λ o, pk_is_None (_meta self) (heap wp o)) objs = []) as Hnone.
  { apply filter_none, Forall_forall. intros l Hl.
    rewrite pk_is_None_has_pk; [by intros []|]. apply Hkeys. by left. }
  rewrite partition_filter in Hwith, Hwithout. simpl in Hwith, Hwithout.
  rewrite Hall in Hwith. rewrite Hnone in Hwithout.
  injection Hwithout as <-. clear Hrun.
  apply insert_with_pk_saves in Hwith as [Hpk Hsaved]. simpl in Hpk, Hsaved.
  apply Forall_forall. intros l Hl. simpl. split.
  - unfold has_pk. rewrite Hpk. apply Hkeys. by left.
  - apply Hsaved. by left.
Qed.

End KeysAssigned.

(** *** Calls that stop at a check *)

(** X5: an empty list is handed back as it is, with nothing done and the
    conflict options not looked at: options that contradict each other
    or that the backend cannot honour raise nothing then. Only a batch
    size that is not positive and a multi-table model are refused
    before. *)
Theorem bulk_create_empty_input self batch_size ignore_conflicts
    update_conflicts update_fields unique_fields w0 :
  (∀ b, batch_size = Some b → 0 < b) →
  Forall (λ parent, parent = concrete_model (_meta self))
         (get_parent_list (_meta self)) →
  spanner_bulk_create connections get_pk_value_on_save
    _prepare_related_fields_for_save _batched_insert self [] batch_size
    ignore_conflicts update_conflicts update_fields unique_fields w0
  = (w0, inr []).
Proof.
  intros Hbatch Hparents. unfold spanner_bulk_create.
  assert (match batch_size with Some b => b <=? 0 | None => false end = false)
    as ->.
  { destruct batch_size as [b|]; [|done]. specialize (Hbatch b eq_refl). lia. }
  assert (existsb (λ parent, negb (String.eqb parent (concrete_model (_meta self))))
                  (get_parent_list (_meta self)) = false) as ->; [|done].
  induction Hparents as [|parent parents -> _ IH]; [done|].
  simpl. by rewrite String.eqb_refl.
Qed.

(** X6: conflict options that the resolver refuses make the call fail with
    the resolver's exception before anything is done: no key is drawn,
    the queryset is not marked for writing, no instance and no
    connection is touched. *)
Theorem bulk_create_options_checked_first self objs batch_size
    ignore_conflicts update_conflicts update_fields unique_fields e w0 :
  (∀ b, batch_size = Some b → 0 < b) →
  Forall (λ parent, parent = concrete_model (_meta self))
         (get_parent_list (_meta self)) →
  objs ≠ [] →
  spanner_check_bulk_create_options connections self ignore_conflicts
    update_conflicts update_fields unique_fields = inl e →
  spanner_bulk_create connections get_pk_value_on_save
    _prepare_related_fields_for_save _batched_insert self objs batch_size
    ignore_conflicts update_conflicts update_fields unique_fields w0
  = (w0, inl e).
Proof.
  intros Hbatch Hparents Hobjs Hcheck. unfold spanner_bulk_create.
  assert (match batch_size with Some b => b <=? 0 | None => false end = false)
    as ->.
  { destruct batch_size as [b|]; [|done]. specialize (Hbatch b eq_refl). lia. }
  assert (existsb (λ parent, negb (String.eqb parent (concrete_model (_meta self))))
                  (get_parent_list (_meta self)) = false) as ->.
  { induction Hparents as [|parent parents -> _ IH]; [done|].
    simpl. by rewrite String.eqb_refl. }
  destruct objs as [|o objs]; [done|].
  unfold bind at 1, lift. by rewrite Hcheck.
Qed.

(** X7: the checks come in a fixed order: a batch size that is not positive
    is refused whatever else is wrong, and a multi-table model is refused
    before the list and the conflict options are looked at. *)
Theorem bulk_create_refusals self objs batch_size ignore_conflicts
    update_conflicts update_fields unique_fields w0 :
  let out :=
    spanner_bulk_create connections get_pk_value_on_save
      _prepare_related_fields_for_save _batched_insert self objs batch_size
      ignore_conflicts update_conflicts update_fields unique_fields w0 in
  ((∃ b, batch_size = Some b ∧ b ≤ 0) →
   out = (w0, inl (ValueError "Batch size must be a positive integer.")))
  ∧ ((∀ b, batch_size = Some b → 0 < b) →
     (∃ parent, parent ∈ get_parent_list (_meta self)
                ∧ parent ≠ concrete_model (_meta self)) →
     out = (w0, inl (ValueError
                       "Can't bulk create a multi-table inherited model"))).
Proof.
  simpl. unfold spanner_bulk_create. split.
  - intros (b & -> & Hb).
    by destruct (Z.leb_spec b 0) as [_|?]; [|lia].
  - intros Hbatch (parent & Hin & Hne).
    assert (match batch_size with Some b => b <=? 0 | None => false end = false)
      as ->.
    { destruct batch_size as [b|]; [|done].
      specialize (Hbatch b eq_refl). lia. }
    assert (existsb (λ parent, negb (String.eqb parent (concrete_model (_meta self))))
                    (get_parent_list (_meta self)) = true) as ->; [|done].
    apply existsb_exists. exists parent. split; [by apply list_elem_of_In|].
    by destruct (String.eqb_spec parent (concrete_model (_meta self))).
Qed.

(** *** Calls that return *)

(** X8: a call that returns hands back the list it was given. *)
Theorem bulk_create_returns_input self objs batch_size ignore_conflicts
    update_conflicts update_fields unique_fields w0 w1 returned_objs :
  spanner_bulk_create connections get_pk_value_on_save
    _prepare_related_fields_for_save _batched_insert self objs batch_size
    ignore_conflicts update_conflicts update_fields unique_fields w0
  = (w1, inr returned_objs) →
  returned_objs = objs.
Proof.
  intros Hrun.
  destruct (bulk_create_stages _ _ _ _ _ _ _ _ _ _ Hrun)
    as [[_ [?|[_ [= ->]]]]|(oc & _ & _ & [(e' & _ & ?)|(wp & wa & ra & Hstages)])];
    [done..|].
  simpl in Hstages. destruct Hstages as (_ & _ & Hrest).
  destruct Hrest as [(e' & _ & _ & ?)|(_ & wb & rb & _ & _ & Hr)]; [done|].
  destruct rb; [done|]. by injection Hr as ->.
Qed.

(** Leaving, after success, a block that was entered without savepoint:
    the nesting is as before, the outermost block has committed, and a
    nested block leaves the mark for rollback as it found it. *)
Lemma atomic_exit_succeeded (c c' : Connection DB) :
  tx c' = tx (atomic_enter false c) →
  needs_rollback c' = needs_rollback (atomic_enter false c) →
  tx (atomic_exit true c') = tx c
  ∧ needs_rollback (atomic_exit true c')
    = in_atomic_block c && needs_rollback c
  ∧ data (atomic_exit true c') = data c'.
Proof.
  destruct c as [d t nr], c' as [d' t' nr']. unfold atomic_enter, atomic_exit.
  unfold in_atomic_block. simpl.
  destruct t as [|start sids]; simpl; intros -> ->; simpl; [done|].
  by destruct nr.
Qed.

(** X9: a call that returns, on a list that is not empty, has closed the
    atomic block it opened and kept what was inserted: the preparation
    and the two groups of bulk inserts have succeeded, one after the
    other, and the database holds exactly what the last of them left,
    nothing restored; on a connection in autocommit mode no transaction
    is left open or marked for rollback, so that this is committed and
    what a query is answered from; inside an enclosing transaction the
    nesting and the mark for rollback are as before the call. *)
Theorem bulk_create_success_commits self objs batch_size ignore_conflicts
    update_conflicts update_fields unique_fields w0 w1 returned_objs :
  objs ≠ [] →
  spanner_bulk_create connections get_pk_value_on_save
    _prepare_related_fields_for_save _batched_insert self objs batch_size
    ignore_conflicts update_conflicts update_fields unique_fields w0
  = (w1, inr returned_objs) →
  tx (conn w1) = tx (conn w0)
  ∧ needs_rollback (conn w1)
    = in_atomic_block (conn w0) && needs_rollback (conn w0)
  ∧ ∃ on_conflict wp wa wb,
      let opts := _meta self in
      let n := Z.pos (max_query_params (connections "default")) in
      let groups := partition (λ o, pk_is_None opts (heap wp o)) objs in
      spanner_check_bulk_create_options connections self ignore_conflicts
        update_conflicts update_fields unique_fields = inr on_conflict
      ∧ spanner_prepare_for_bulk_create get_pk_value_on_save
          _prepare_related_fields_for_save self objs (set_for_write true w0)
        = (wp, inr tt)
      ∧ insert_objs_with_pk _batched_insert self on_conflict update_fields
          unique_fields (concrete_fields opts) n groups.1
          (enter_atomic (db self) false wp)
        = (wa, inr tt)
      ∧ insert_objs_without_pk connections _batched_insert self on_conflict
          update_fields unique_fields (concrete_fields opts) n groups.2 wa
        = (wb, inr tt)
      ∧ data (conn w1) = data (conn wb)
      ∧ (tx (conn w0) = Autocommit →
         tx (conn w1) = Autocommit
         ∧ readable (conn w1) = Some (data (conn wb))).
Proof.
  intros Hobjs Hrun.
  destruct (bulk_create_stages _ _ _ _ _ _ _ _ _ _ Hrun)
    as [[_ [?|[? _]]]|(oc & Hoc & _ & [(e' & _ & ?)|(wp & wa & ra & Hstages)])];
    [done..|].
  simpl in Hstages. destruct Hstages as (Hprep & Hwith & Hrest).
  destruct Hrest as [(e' & _ & _ & ?)|(-> & wb & rb & Hwithout & -> & Hr)];
    [done|].
  destruct rb as [e'|[]]; [done|].
  pose proof (prepare_conn self objs (set_for_write true w0)) as Hconn.
  rewrite Hprep in Hconn. simpl in Hconn.
  pose proof (insert_with_pk_same_tx self oc update_fields unique_fields
                (concrete_fields (_meta self))
                (Z.pos (max_query_params (connections "default")))
                (partition (λ o, pk_is_None (_meta self) (heap wp o)) objs).1
                (enter_atomic (db self) false wp)) as [Htx Hnr].
  rewrite Hwith in Htx, Hnr. simpl in Htx, Hnr. rewrite Hconn in Htx, Hnr.
  pose proof (insert_without_pk_same_tx self oc update_fields unique_fields
                (concrete_fields (_meta self))
                (Z.pos (max_query_params (connections "default")))
                (partition (λ o, pk_is_None (_meta self) (heap wp o)) objs).2
                wa) as [Htx' Hnr'].
  rewrite Hwithout in Htx', Hnr'. simpl in Htx', Hnr'. simpl.
  destruct (atomic_exit_succeeded (conn w0) (conn wb))
    as (Ht & Hn & Hd); [congruence..|].
  split; [done|]. split; [done|].
  exists oc, wp, wa, wb. repeat split; try done.
  - by rewrite Ht.
  - unfold readable. rewrite Hn, Hd. unfold in_atomic_block.
    by destruct (tx (conn w0)).
Qed.

(** *** The instances that are written to *)

Lemma foldl_store_frame {X} (key : X → loc) (f : X → Instance → Instance)
    (xs : list X) (h : Store) (l : loc) :
  l ∉ key <$> xs →
  foldl (λ h x, <[key x := f x (h (key x))]> h) h xs l = h l.
Proof.
  revert h. induction xs as [|x xs IH]; intros h Hl; [done|].
  simpl. rewrite fmap_cons in Hl. apply not_elem_of_cons in Hl as [Hne Hl].
  rewrite IH by done. by rewrite fn_lookup_insert_ne.
Qed.

Lemma write_back_with_pk_frame self chunk rows (h : Store) (l : loc) :
  l ∉ chunk → write_back_with_pk self chunk rows h l = h l.
Proof.
  intros Hl. unfold write_back_with_pk.
  rewrite (foldl_store_frame id (λ _, mark_saved (db self)))
    by (by rewrite list_fmap_id).
  apply (foldl_store_frame fst
           (λ pr, set_returned_except_pk (_meta self) pr.2)).
  intros [[l' r] [-> Hin]]%list_elem_of_fmap. apply Hl.
  by apply elem_of_zip_l in Hin.
Qed.

(** X12: what the write-back does for a chunk of instances that came with a
    key, however many rows were returned: no key changes, every instance
    of the chunk is marked as saved on the queryset's database, and no
    other instance is touched. *)
Theorem write_back_with_pk_marks_chunk self chunk rows (h : Store) :
  let h' := write_back_with_pk self chunk rows h in
  (∀ l : loc, get_pk (_meta self) (h' l) = get_pk (_meta self) (h l))
  ∧ (∀ l : loc, l ∈ chunk →
       adding (h' l) = false ∧ state_db (h' l) = Some (db self))
  ∧ (∀ l : loc, l ∉ chunk → h' l = h l).
Proof.
  simpl. split; [intros l; apply write_back_with_pk_get_pk|].
  split; [|intros l; apply write_back_with_pk_frame].
  intros l Hl. unfold write_back_with_pk.
  apply (foldl_store_set id (λ _, mark_saved (db self))
           (λ o, adding o = false ∧ state_db o = Some (db self))); [done|].
  by rewrite list_fmap_id.
Qed.

(** The store after the block for the instances without keys: as it was
    when the insert or the check of the row count failed, and otherwise
    the write-back of the returned rows, whose number is that of the
    instances when the backend returns rows and no conflict handling is
    asked for. *)
Lemma insert_without_pk_heap self on_conflict update_fields unique_fields
    fields batch_size objs w w' r :
  insert_without_pk self on_conflict update_fields unique_fields fields
                    batch_size objs w = (w', r) →
  (heap w' = heap w ∧ (is_ok r = false ∨ objs = []))
  ∨ (r = inr tt
     ∧ ∃ rows, heap w' = write_back_without_pk self objs rows (heap w)
               ∧ (can_return_rows_from_bulk_insert (connections (db self))
                  = true →
                  on_conflict = None → length rows = length objs)).
Proof.
  unfold insert_objs_without_pk. destruct objs as [|o objs'] eqn:Hobjs.
  { intros [= <- <-]. left. auto. }
  rewrite <- Hobjs. unfold bind at 1.
  pose proof (insert_heap LacksKey objs (filter (λ f, ¬ auto_field f) fields)
                batch_size on_conflict update_fields unique_fields w) as Hheap.
  destruct (insert LacksKey objs _ batch_size on_conflict update_fields
                   unique_fields w) as [w1 [e|rows]]; simpl in Hheap.
  { intros [= <- <-]. left. auto. }
  unfold bind, modify, ret, raise.
  destruct (can_return_rows_from_bulk_insert (connections (db self)))
    eqn:Hcan; simpl.
  - destruct (bool_decide (on_conflict = None)) eqn:Hoc; simpl.
    + destruct (bool_decide (length rows = length objs)) eqn:Hlen; simpl.
      * intros [= <- <-]. right. split; [done|]. exists rows. simpl.
        rewrite Hheap. split; [done|]. intros _ _.
        by apply bool_decide_eq_true in Hlen.
      * intros [= <- <-]. left. auto.
    + intros [= <- <-]. right. split; [done|]. exists rows. simpl.
      rewrite Hheap. split; [done|]. intros _ ->.
      by apply bool_decide_eq_false in Hoc.
  - intros [= <- <-]. right. split; [done|]. exists rows. simpl.
    rewrite Hheap. split; [done|]. done.
Qed.

Lemma write_back_without_pk_paired self objs rows (h : Store) (i : nat)
    (l : loc) :
  objs !! i = Some l → (i < length rows)%nat →
  adding (write_back_without_pk self objs rows h l) = false
  ∧ state_db (write_back_without_pk self objs rows h l) = Some (db self).
Proof.
  revert rows h i. induction objs as [|o objs IH]; intros rows h i Hi Hlt;
    [done|].
  destruct rows as [|r rows]; [simpl in Hlt; lia|].
  rewrite write_back_without_pk_cons. destruct i as [|i].
  - injection Hi as ->. apply write_back_without_pk_saved.
    by rewrite fn_lookup_insert.
  - eapply IH; [exact Hi | simpl in Hlt; lia].
Qed.

(** X13: with a backend that returns rows from a bulk insert and no conflict
    handling, the block for the instances without keys, when it does not
    fail, leaves every one of them marked as saved on the queryset's
    database. *)
Theorem insert_without_pk_all_saved self update_fields unique_fields fields
    batch_size objs w w' :
  can_return_rows_from_bulk_insert (connections (db self)) = true →
  insert_objs_without_pk connections _batched_insert self None update_fields
    unique_fields fields batch_size objs w = (w', inr tt) →
  ∀ l : loc, l ∈ objs →
    adding (heap w' l) = false ∧ state_db (heap w' l) = Some (db self).
Proof.
  intros Hcan Hrun l Hl.
  apply insert_without_pk_heap in Hrun
    as [[_ [? | ->]]|(_ & rows & -> & Hlen)];
    [done|by apply elem_of_nil in Hl|].
  apply list_elem_of_lookup in Hl as [i Hi].
  apply (write_back_without_pk_paired _ _ _ _ i); [done|].
  rewrite Hlen by done. by eapply lookup_lt_Some.
Qed.

Lemma prepare_frame self objs w (l : loc) :
  l ∉ objs → heap (prepare self objs w).1 l = heap w l.
Proof.
  intros Hl. unfold spanner_prepare_for_bulk_create.
  apply (for_each_rel (λ w w', heap w' l = heap w l)); [done|congruence|].
  intros obj w1 Hobj.
  match goal with |- context [(?step w1).1] =>
    destruct (step w1) as [w2 r] eqn:Hstep end.
  apply prepare_step in Hstep as (_ & _ & _ & _ & Hframe).
  apply Hframe. by intros ->.
Qed.

Lemma insert_with_pk_frame self on_conflict update_fields unique_fields fields
    (n : positive) objs w (l : loc) :
  l ∉ objs →
  heap (insert_with_pk self on_conflict update_fields unique_fields fields
                       (Z.pos n) objs w).1 l = heap w l.
Proof.
  intros Hl. unfold insert_objs_with_pk. destruct objs as [|o objs'] eqn:Hobjs;
    [done|].
  rewrite <- Hobjs in *. clear Hobjs. unfold bind at 1, lift.
  destruct (chunks_total objs n) as [cs Hcs]. rewrite Hcs.
  apply chunks_concat in Hcs.
  apply (for_each_rel (λ w w', heap w' l = heap w l)); [done|congruence|].
  intros chunk w1 Hchunk. unfold bind, modify.
  pose proof (insert_heap HasKey chunk fields (Z.pos n) on_conflict
                update_fields unique_fields w1) as Hheap.
  destruct (insert HasKey chunk fields (Z.pos n) on_conflict update_fields
                   unique_fields w1) as [w2 [e|rows]]; simpl in *;
    [by rewrite Hheap|].
  rewrite write_back_with_pk_frame, Hheap; [done|].
  intros Hin. apply Hl. rewrite <- Hcs. by eapply elem_of_concat.
Qed.

(** X10: a call writes to no instance outside the list it is given. *)
Theorem bulk_create_frame self objs batch_size ignore_conflicts
    update_conflicts update_fields unique_fields w0 w1 r (l : loc) :
  spanner_bulk_create connections get_pk_value_on_save
    _prepare_related_fields_for_save _batched_insert self objs batch_size
    ignore_conflicts update_conflicts update_fields unique_fields w0
  = (w1, r) →
  l ∉ objs → heap w1 l = heap w0 l.
Proof.
  intros Hrun Hl.
  pose proof (prepare_frame self objs (set_for_write true w0) l Hl) as Hp.
  destruct (bulk_create_stages _ _ _ _ _ _ _ _ _ _ Hrun)
    as [[-> _]|(oc & _ & _ & [(e' & Hprep & _)|(wp & wa & ra & Hstages)])];
    [done|by rewrite Hprep in Hp|].
  simpl in Hstages. destruct Hstages as (Hprep & Hwith & Hrest).
  rewrite Hprep in Hp. simpl in Hp.
  assert (∀ group, group ⊆ objs → l ∉ group) as Hsub
    by (intros group Hg Hin; by apply Hl, Hg).
  assert (heap wa l = heap w0 l) as Hwa.
  { pose proof (insert_with_pk_frame self oc update_fields unique_fields
                  (concrete_fields (_meta self))
                  (max_query_params (connections "default"))
                  (partition (λ o, pk_is_None (_meta self) (heap wp o)) objs).1
                  (enter_atomic (db self) false wp) l) as Hf.
    rewrite Hwith in Hf. simpl in Hf. rewrite Hf; [done|].
    apply Hsub. rewrite partition_filter. simpl. apply list_subseteq_filter. }
  destruct Hrest as [(e' & -> & -> & _)|(-> & wb & rb & Hwithout & -> & Hr)];
    [done|].
  simpl. apply insert_without_pk_heap in Hwithout
    as [[-> _]|(_ & rows & -> & _)]; [done|].
  rewrite write_back_without_pk_frame; [done|].
  intros i Hi. exfalso.
  apply (Hsub (partition (λ o, pk_is_None (_meta self) (heap wp o)) objs).2).
  - rewrite partition_filter. simpl. apply list_subseteq_filter.
  - by eapply list_elem_of_lookup_2.
Qed.

(** *** What the bulk inserts are handed *)

(** X11: every bulk insert of a call is handed the conflict policy that the
    resolver answered. Instances with keys are inserted with all the
    concrete fields of the model, instances without keys with the
    concrete fields that are not [AutoField]s. *)
Theorem bulk_create_insert_arguments self objs batch_size ignore_conflicts
    update_conflicts update_fields unique_fields on_conflict w0 w1 r :
  spanner_check_bulk_create_options connections self ignore_conflicts
    update_conflicts update_fields unique_fields = inr on_conflict →
  spanner_bulk_create connections get_pk_value_on_save
    _prepare_related_fields_for_save _batched_insert self objs batch_size
    ignore_conflicts update_conflicts update_fields unique_fields w0
  = (w1, r) →
  extends (insert_arguments self on_conflict) w0 w1.
Proof.
  intros Hcheck Hrun. set (P := insert_arguments self on_conflict).
  destruct (bulk_create_stages _ _ _ _ _ _ _ _ _ _ Hrun)
    as [[-> _]|(oc & Hoc & _ & [(e' & Hprep & _)|(wp & wa & ra & Hstages)])].
  - apply extends_refl.
  - pose proof (prepare_extends P self objs (set_for_write true w0)) as Hp.
    rewrite Hprep in Hp. by apply Hp.
  - rewrite Hcheck in Hoc. injection Hoc as <-.
    simpl in Hstages. destruct Hstages as (Hprep & Hwith & Hrest).
    assert (extends P w0 wa) as Hwa.
    { by eapply (with_pk_stage_extends P self objs on_conflict update_fields
                   unique_fields _ (set_for_write true w0)). }
    destruct Hrest as [(e' & -> & -> & _)|(-> & wb & rb & Hwithout & -> & Hr)].
    + eapply extends_trans; [exact Hwa|]. by apply extends_exit_atomic.
    + eapply extends_trans; [exact Hwa|].
      eapply extends_trans; [|by apply extends_exit_atomic].
      match type of Hwithout with ?run = _ =>
        replace wb with (run.1) by (by rewrite Hwithout) end.
      apply insert_without_pk_rel;
        [apply extends_refl | apply extends_trans | |].
      * intros w. by apply extends_insert.
      * intros h w. by apply extends_same_log.
Qed.

(** *** Instances that come with a key *)

Section KeysKept.
Context (self : QuerySet).
Context (related_keeps_key :
           ∀ (h : Store) (l : loc) o,
             _prepare_related_fields_for_save h l = inr o →
             has_pk (_meta self) (h l) → has_pk (_meta self) o).

Lemma prepare_step_draws obj w w' r :
  (let* o := gets (λ w, heap w obj) in
   (if pk_is_None (_meta self) o then assign self obj else ret tt) ;;;
   prepare_related obj) w = (w', r) →
  ∃ evs, log w' = log w ++ evs
         ∧ rng w' = (if pk_is_None (_meta self) (heap w obj)
                     then (get_pk_value_on_save (rng w) (heap w obj)).2
                     else rng w)
         ∧ evs = (if pk_is_None (_meta self) (heap w obj)
                  then [EvAssignKey obj] else [])
         ∧ (∀ l : loc, has_pk (_meta self) (heap w l) →
              l ≠ obj ∨ is_ok r = true → has_pk (_meta self) (heap w' l)).
Proof.
  unfold bind, gets, assign_pk, prepare_related_fields_for_save, ret.
  destruct (pk_is_None (_meta self) (heap w obj)) eqn:Hnone.
  - destruct (get_pk_value_on_save _ _) as [v g]. simpl.
    destruct (_prepare_related_fields_for_save _ _) as [e|o] eqn:Hrel;
      intros [= <- <-]; exists [EvAssignKey obj]; simpl;
      (split; [done|]); (split; [done|]); (split; [done|]);
      intros l Hl [Hne|?]; try done.
    + by rewrite fn_lookup_insert_ne by congruence.
    + by rewrite !fn_lookup_insert_ne by congruence.
    + destruct (decide (obj = l)) as [<-|Hne].
      * exfalso. unfold pk_is_None in Hnone.
        by apply bool_decide_eq_true in Hnone.
      * by rewrite !fn_lookup_insert_ne.
  - apply pk_is_None_false in Hnone.
    destruct (_prepare_related_fields_for_save _ _) as [e|o] eqn:Hrel;
      intros [= <- <-]; exists []; simpl; rewrite app_nil_r;
      (split; [done|]); (split; [done|]); (split; [done|]);
      intros l Hl [Hne|?]; try done.
    + by rewrite fn_lookup_insert_ne by congruence.
    + destruct (decide (obj = l)) as [<-|Hne].
      * rewrite fn_lookup_insert. by eapply related_keeps_key.
      * by rewrite fn_lookup_insert_ne.
Qed.

(** X14: when preparing the related fields keeps keys, no key is drawn for an
    instance that has one when the preparation starts, however often it
    is listed and whether or not the preparation fails later. *)
Theorem prepare_draws_no_key_for_keyed objs w w' r assigns (l : loc) :
  has_pk (_meta self) (heap w l) →
  spanner_prepare_for_bulk_create get_pk_value_on_save
    _prepare_related_fields_for_save self objs w = (w', r) →
  log w' = log w ++ assigns →
  EvAssignKey l ∉ assigns.
Proof.
  unfold spanner_prepare_for_bulk_create. revert w assigns.
  induction objs as [|obj objs IH]; intros w assigns Hl.
  - intros [= <- <-] Hlog.
    rewrite <- (app_nil_r (log w)) in Hlog at 1.
    apply app_inv_head in Hlog as <-. apply not_elem_of_nil.
  - rewrite for_each_cons.
    match goal with |- context [match ?step w with _ => _ end] =>
      destruct (step w) as [w1 r1] eqn:Hstep end.
    apply prepare_step_draws in Hstep as (evs & Hlog1 & _ & Hevs & Hkeep).
    assert (EvAssignKey l ∉ evs) as Hnot.
    { rewrite Hevs. destruct (pk_is_None (_meta self) (heap w obj)) eqn:Hnone;
        [|apply not_elem_of_nil].
      intros [= ->]%list_elem_of_singleton. unfold pk_is_None in Hnone.
      by apply bool_decide_eq_true in Hnone. }
    destruct r1 as [e|[]].
    + intros [= <- <-] Hlog. rewrite Hlog1 in Hlog.
      by apply app_inv_head in Hlog as <-.
    + intros Hrest Hlog.
      assert (∃ assigns', log w' = log w1 ++ assigns') as [assigns' Hlog2].
      { pose proof (prepare_extends (λ _, True) self objs w1) as Hp.
        unfold spanner_prepare_for_bulk_create in Hp. rewrite Hrest in Hp.
        destruct Hp as (evs' & ? & _); [done|]. by exists evs'. }
      assert (assigns = evs ++ assigns') as ->.
      { rewrite Hlog2, Hlog1, <- app_assoc in Hlog.
        by apply app_inv_head in Hlog. }
      apply not_elem_of_app. split; [done|].
      eapply (IH w1); [|exact Hrest|exact Hlog2]. apply Hkeep; auto.
Qed.

End KeysKept.

End Runs.

(** ** The functions at work on the small model *)

Import Singers.

(** C1 fails on the code: a key hook without a default answers [None],
    the instance goes to the group without keys, the backend returns no
    rows, and the call returns the instance without a key and still
    marked as being added. *)
Lemma bulk_create_keyless_stays_new :
  let out := run features no_default insert_all [0%nat] None keyless in
  pk_is_None opts (keyless 0%nat) = true
  ∧ out.2 = inr [0%nat]
  ∧ get_pk opts (heap out.1 0%nat) = VNone
  ∧ adding (heap out.1 0%nat) = true.
Proof. vm_compute. done. Qed.


(** C3 fails on the code: asked for batches of one instance, with room
    for two parameters, the call inserts the two instances in one chunk
    and hands the executor the batch size two. *)
Lemma bulk_create_ignores_batch_size :
  let out := run features random_key insert_all [0; 1]%nat (Some 1) keyed in
  1 ≤ Z.pos (max_query_params features)
  ∧ out.2 = inr [0; 1]%nat
  ∧ log out.1 = [EvAtomicEnter "default" false;
                 EvInsert HasKey [0; 1]%nat [id_field; name_field] 2 None
                          (Some 0%nat);
                 EvAtomicExit true]
  ∧ ¬ Forall (uses_batch_size 1) (log out.1).
Proof.
  vm_compute. split; [by intros [=]|]. split; [done|]. split; [done|].
  intros Hall. apply Forall_cons in Hall as [_ Hall].
  apply Forall_cons in Hall as [[? _] _]. done.
Qed.

(** C4 fails on the code: with room for two parameters and two fields
    per row a chunk should hold one row, and the chunk handed to the
    executor holds two. *)
Lemma bulk_create_chunk_exceeds_quotient :
  let out := run features random_key insert_all [0; 1]%nat None keyed in
  let n := Z.pos (max_query_params features) in
  let f := Z.of_nat (length (concrete_fields opts)) in
  out.2 = inr [0; 1]%nat
  ∧ chunks (partition (λ o, pk_is_None opts (keyed o)) [0; 1]%nat).1 n
    = inr [[0; 1]%nat]
  ∧ EvInsert HasKey [0; 1]%nat (concrete_fields opts) n None (Some 0%nat)
    ∈ log out.1
  ∧ n / f < Z.of_nat (length [0; 1]%nat).
Proof.
  vm_compute. split; [done|]. split; [done|]. split; [|done].
  apply elem_of_cons. right. by left.
Qed.

(** C7 fails on the code: the backend says that it returns rows, no
    conflict handling is asked for, the bulk insert of an instance with
    a key returns no row, and the call returns as if nothing were
    wrong. *)
Lemma bulk_create_with_pk_count_unchecked :
  let out := run returning_features random_key insert_all [0%nat] None keyed in
  can_return_rows_from_bulk_insert returning_features = true
  ∧ out.2 = inr [0%nat]
  ∧ log out.1 = [EvAtomicEnter "default" false;
                 EvInsert HasKey [0%nat] [id_field; name_field] 2 None
                          (Some 0%nat);
                 EvAtomicExit true]
  ∧ 0%nat ≠ length [0%nat].
Proof. vm_compute. done. Qed.

(** The theorems at concrete calls. *)

Lemma pair_with_snd {A B} (p : A * B) (b : B) : p.2 = b → p = (p.1, b).
Proof. destruct p as [a b']. simpl. by intros ->. Defined.

Lemma bulk_create_keys_and_saved_witness :
  let out := run features random_key insert_all [0; 1; 2]%nat None keyless in
  [0; 1; 2]%nat = [0; 1; 2]%nat
  ∧ Forall (λ l, has_pk opts (heap out.1 l) ∧ adding (heap out.1 l) = false)
           [0; 1; 2]%nat.
Proof.
  intros out. subst out. unfold run.
  refine (bulk_create_keys_and_saved (λ _, features) random_key no_related
            insert_all qs _ _ [0; 1; 2]%nat None false false None None
            (world keyless) _ [0; 1; 2]%nat _ _ _).
  - intros g o. simpl. discriminate.
  - intros h l o [= <-] Hl. exact Hl.
  - discriminate.
  - intros l Hl. repeat (apply elem_of_cons in Hl as [->|Hl]);
      [vm_compute; exact I ..|by apply elem_of_nil in Hl].
  - apply pair_with_snd. vm_compute. reflexivity.
Defined.


Lemma bulk_create_batch_size_is_ceiling_witness :
  let out := run features random_key insert_all [0; 1]%nat (Some 1) keyed in
  let prepared :=
    spanner_prepare_for_bulk_create random_key no_related qs [0; 1]%nat
      (set_for_write true (world keyed)) in
  ∃ evs cs,
    let groups :=
      partition (λ o, pk_is_None opts (heap prepared.1 o)) [0; 1]%nat in
    let planned :=
      ((λ c, (HasKey, c)) <$> cs)
        ++ match groups.2 with
           | [] => []
           | _ :: _ => [(LacksKey, groups.2)]
           end in
    log out.1 = log (world keyed) ++ evs
    ∧ Forall (uses_batch_size 2) evs
    ∧ chunks groups.1 2 = inr cs
    ∧ insert_calls evs `prefix_of` planned
    ∧ (is_ok out.2 = true → insert_calls evs = planned).
Proof.
  intros out prepared. subst out prepared. unfold run.
  destruct (bulk_create_batch_size_is_ceiling (λ _, features) random_key
              no_related insert_all qs [0; 1]%nat (Some 1) false false None
              None (world keyed) _ _ (surjective_pairing _))
    as (evs & Hlog & Hsizes & Hchunks).
  destruct (Hchunks
              ltac:(split; [intros b [= <-]; reflexivity|];
                    split; [constructor|]; split; [discriminate|reflexivity])
              (spanner_prepare_for_bulk_create random_key no_related qs
                 [0; 1]%nat (set_for_write true (world keyed))).1
              ltac:(apply pair_with_snd; vm_compute; reflexivity))
    as (cs & Hcs & Hpre & Hall).
  exists evs, cs. repeat split; assumption.
Defined.

(** Two chunks of two singers; the second singer of the second chunk has
    a name that is already stored, so its insert fails after the row
    before it was written. *)
Lemma bulk_create_failure_rolls_back_witness :
  let out := run features random_key insert_unique_names [0; 1; 2; 3]%nat None
                 keyed in
  Exists insert_failed (log out.1)
  ∧ is_ok out.2 = false
  ∧ tx (conn out.1) = tx (conn (world keyed))
  ∧ (data (conn out.1) = data (conn (world keyed))
     ∨ (in_atomic_block (conn (world keyed)) = true
        ∧ readable (conn out.1) = None)).
Proof.
  intros out. subst out. unfold run.
  destruct (bulk_create_failure_rolls_back (λ _, features) random_key
              no_related insert_unique_names qs [0; 1; 2; 3]%nat None false
              false None None (world keyed) _ _ (surjective_pairing _))
    as [Hfails Hrolls].
  assert (Exists insert_failed
            (log (spanner_bulk_create (λ _, features) random_key no_related
                    insert_unique_names qs [0; 1; 2; 3]%nat None false false
                    None None (world keyed)).1)) as Hfailed.
  { vm_compute. do 2 apply Exists_cons_tl. apply Exists_cons_hd. exact I. }
  split; [exact Hfailed|].
  pose proof (Hfails _ eq_refl Hfailed) as Hr.
  split; [exact Hr|]. exact (Hrolls Hr).
Defined.

Lemma bulk_create_row_count_asserted_witness :
  let out := run returning_features no_default insert_all [0%nat] None
                 keyless in
  out.2 = inl AssertionError ∧ [EvAtomicExit false] = [EvAtomicExit false].
Proof.
  intros out. subst out. unfold run.
  refine (bulk_create_row_count_asserted (λ _, returning_features) no_default
            no_related insert_all qs [0%nat] None None None (world keyless) _ _
            [EvAssignKey 0; EvAtomicEnter "default" false] [EvAtomicExit false]
            [0%nat] [name_field] 2 None 0 _ _ _ _).
  - reflexivity.
  - apply pair_with_snd. reflexivity.
  - vm_compute. reflexivity.
  - discriminate.
Defined.

Lemma check_options_unique_fields_pk_witness :
  get_field opts "pk" = None
  ∧ spanner_check_bulk_create_options (λ _, upsert_features) qs false true
      (Some ["name"]) (Some ["pk"; "name"])
    = inr (Some UPDATE).
Proof.
  split; [reflexivity|].
  refine (proj1 (check_options_unique_fields_pk (λ _, upsert_features) qs
                   (Some ["name"]) (Some ["pk"; "name"]) [name_field]
                   _ _ _ _ _ _ _ _) _);
    try reflexivity.
  - intros name Hin Hne. simpl in Hin.
    repeat (apply elem_of_cons in Hin as [->|Hin]);
      [done | by eexists | by apply elem_of_nil in Hin].
  - intros name f Hin Hne Hf. simpl in Hin.
    repeat (apply elem_of_cons in Hin as [->|Hin]);
      [done | by injection Hf as <- | by apply elem_of_nil in Hin].
Defined.

(** Three singers, one returned row: the first is marked as saved, the
    third keeps its flag and has no database. *)
Lemma write_back_without_pk_only_paired_witness :
  let h' := write_back_without_pk qs [0; 1; 2]%nat [[]] keyless in
  (adding (h' 0%nat) = false ∧ state_db (h' 0%nat) = Some "default")
  ∧ (adding (h' 2%nat) = adding (keyless 2%nat)
     ∧ state_db (h' 2%nat) = state_db (keyless 2%nat)).
Proof.
  intros h'. subst h'.
  pose proof (write_back_without_pk_only_paired qs [0; 1; 2]%nat [[]] keyless)
    as [Hpaired Hframe].
  split.
  - apply (Hpaired 0%nat 0%nat); [reflexivity | simpl; lia].
  - apply Hframe. intros [|[|[|i]]] Hi; simpl in *; try discriminate; lia.
Defined.

(** ** Keys, JSON values and timestamps *)

(** X17: the generated key is the identifier modulo [2^63]: it is never
    negative and fits 63 bits, and two identifiers that differ by a
    multiple of [2^63] give the same key. *)
Theorem gen_rand_int64_range (uuid k : Z) :
  0 ≤ gen_rand_int64 uuid < 2 ^ 63
  ∧ gen_rand_int64 uuid = uuid `mod` 2 ^ 63
  ∧ gen_rand_int64 (uuid + k * 2 ^ 63) = gen_rand_int64 uuid.
Proof.
  unfold gen_rand_int64. change 0x7FFFFFFFFFFFFFFF with (Z.ones 63).
  rewrite !Z.land_ones by lia. split; [apply Z.mod_pos_bound; lia|].
  split; [done|]. by rewrite Z.mod_add by lia.
Qed.

(** X18: preparing a JSON value twice is preparing it once; what comes out
    is a dictionary exactly when what went in was one, and a dictionary
    that comes out is a [JsonObject]. *)
Theorem get_prep_value_idempotent {D O} (value : JsonValue D O) :
  get_prep_value (get_prep_value value) = get_prep_value value
  ∧ is_dict (get_prep_value value) = is_dict value
  ∧ is_JsonObject (get_prep_value value) = is_dict value.
Proof. by destruct value. Qed.

(** X19: with an inherited comparison, the patched comparison of timestamps
    answers true wherever the inherited one does, is the inherited one
    on two objects of the same type, and on objects of different types
    adds the pairs whose other member is a datetime that prints the
    same. *)
Theorem datetimewithnanoseconds_eq_extends {Obj R} (truth : R → bool)
    (old : Obj → Obj → R) same_type is_datetime ctime (self other : Obj) :
  let eq := datetimewithnanoseconds_eq truth (Some old) same_type is_datetime
                                       ctime in
  (truth (old self other) = true → eq self other = true)
  ∧ (same_type self other = true → eq self other = truth (old self other))
  ∧ (same_type self other = false →
     eq self other
     = truth (old self other)
       || (is_datetime other && bool_decide (ctime self = ctime other))).
Proof.
  simpl. unfold datetimewithnanoseconds_eq.
  destruct (truth (old self other)), (same_type self other),
           (is_datetime other); simpl; done.
Qed.

(** The further theorems at concrete calls. *)

Lemma check_options_update_sound_witness :
  supports_update_conflicts upsert_features = true
  ∧ truthy (Some ["name"]) = true
  ∧ ∀ name, name ∈ ["name"] →
      ∃ f, get_field opts name = Some f ∧ concrete f = true
           ∧ many_to_many f = false ∧ primary_key f = false.
Proof.
  pose proof (check_options_update_sound (λ _, upsert_features) qs false true
                (Some ["name"]) (Some ["pk"; "name"]) eq_refl)
    as (_ & _ & Hsup & Hupd & _ & Hfields & _).
  by repeat split.
Defined.

Lemma check_options_not_supported_witness :
  (true = true ∧ supports_ignore_conflicts features = false)
  ∨ (false = true ∧ supports_update_conflicts features = false)
  ∨ (false = true ∧ truthy (@None (list string)) = true
     ∧ supports_update_conflicts_with_target features = false).
Proof.
  exact (check_options_not_supported (λ _, features) qs true false None None
           "This database backend does not support ignoring conflicts."
           eq_refl).
Defined.

Lemma bulk_create_empty_input_witness :
  spanner_bulk_create (λ _, features) random_key no_related insert_all qs []
    (Some 5) true true None None (world keyless)
  = (world keyless, inr []).
Proof.
  apply bulk_create_empty_input.
  - intros b [= <-]. lia.
  - constructor.
Defined.

Lemma bulk_create_options_checked_first_witness :
  spanner_bulk_create (λ _, features) random_key no_related insert_all qs
    [0%nat] None true false None None (world keyless)
  = (world keyless,
     inl (NotSupportedError
            "This database backend does not support ignoring conflicts.")).
Proof.
  apply bulk_create_options_checked_first.
  - intros b [=].
  - constructor.
  - discriminate.
  - reflexivity.
Defined.

Lemma bulk_create_refusals_witness :
  spanner_bulk_create (λ _, features) random_key no_related insert_all qs
    [0%nat] (Some 0) true true None None (world keyless)
  = (world keyless, inl (ValueError "Batch size must be a positive integer.")).
Proof.
  apply (proj1 (bulk_create_refusals (λ _, features) random_key no_related
                  insert_all qs [0%nat] (Some 0) true true None None
                  (world keyless))).
  exists 0. split; [reflexivity | lia].
Defined.

Lemma bulk_create_returns_input_witness :
  let out := run features random_key insert_all [2; 0; 1]%nat None keyless in
  out.2 = inr [2; 0; 1]%nat.
Proof.
  intros out. subst out. unfold run.
  assert (∃ returned_objs,
            (spanner_bulk_create (λ _, features) random_key no_related
               insert_all qs [2; 0; 1]%nat None false false None None
               (world keyless)).2 = inr returned_objs) as [returned_objs Hr].
  { eexists. vm_compute. reflexivity. }
  rewrite Hr. f_equal.
  eapply (bulk_create_returns_input (λ _, features) random_key no_related
            insert_all qs).
  apply pair_with_snd. exact Hr.
Defined.

Lemma bulk_create_success_commits_witness :
  let out := run features random_key insert_all [0; 1; 2]%nat None keyless in
  [0; 1; 2]%nat ≠ []
  ∧ tx (conn out.1) = tx (conn (world keyless))
  ∧ needs_rollback (conn out.1)
    = in_atomic_block (conn (world keyless))
      && needs_rollback (conn (world keyless))
  ∧ ∃ on_conflict wp wa wb,
      let groups := partition (λ o, pk_is_None opts (heap wp o))
                              [0; 1; 2]%nat in
      spanner_check_bulk_create_options (λ _, features) qs false false None
        None = inr on_conflict
      ∧ spanner_prepare_for_bulk_create random_key no_related qs
          [0; 1; 2]%nat (set_for_write true (world keyless))
        = (wp, inr tt)
      ∧ insert_objs_with_pk insert_all qs on_conflict None None
          (concrete_fields opts) 2 groups.1 (enter_atomic "default" false wp)
        = (wa, inr tt)
      ∧ insert_objs_without_pk (λ _, features) insert_all qs on_conflict None
          None (concrete_fields opts) 2 groups.2 wa
        = (wb, inr tt)
      ∧ data (conn out.1) = data (conn wb)
      ∧ (tx (conn (world keyless)) = Autocommit →
         tx (conn out.1) = Autocommit
         ∧ readable (conn out.1) = Some (data (conn wb))).
Proof.
  intros out. subst out. unfold run. split; [discriminate|].
  refine (bulk_create_success_commits (λ _, features) random_key no_related
            insert_all qs [0; 1; 2]%nat None false false None None
            (world keyless) _ [0; 1; 2]%nat _ _).
  - discriminate.
  - apply pair_with_snd. vm_compute. reflexivity.
Defined.

(** Two singers with keys and no returned row: both are marked as saved
    and keep their keys, the third singer is as before. *)
Lemma write_back_with_pk_marks_chunk_witness :
  let h' := write_back_with_pk qs [0; 1]%nat [] keyed in
  get_pk opts (h' 0%nat) = get_pk opts (keyed 0%nat)
  ∧ (adding (h' 1%nat) = false ∧ state_db (h' 1%nat) = Some "default")
  ∧ h' 2%nat = keyed 2%nat.
Proof.
  intros h'. subst h'.
  pose proof (write_back_with_pk_marks_chunk qs [0; 1]%nat [] keyed)
    as (Hpk & Hsaved & Hframe).
  split; [apply Hpk|]. split.
  - apply Hsaved. apply elem_of_cons. right. by left.
  - apply Hframe. intros Hin.
    repeat (apply elem_of_cons in Hin as [Hin|Hin]; [discriminate|]).
    by apply elem_of_nil in Hin.
Defined.

Lemma insert_without_pk_all_saved_witness :
  let returning := λ (d : list (list value)) (objs : list Instance)
                     (fields : list Field) (batch_size : Z)
                     (on_conflict : option OnConflict)
                     (update_fields unique_fields : option (list string)),
                     (d ++ (row fields <$> objs),
                      inr ((λ _, []) <$> objs) : exn + list (list value)) in
  let out := insert_objs_without_pk (λ _, returning_features) returning qs None
               None None [id_field; name_field] 2 [0; 1]%nat (world keyless) in
  (adding (heap out.1 0%nat) = false
   ∧ state_db (heap out.1 0%nat) = Some "default")
  ∧ (adding (heap out.1 1%nat) = false
     ∧ state_db (heap out.1 1%nat) = Some "default").
Proof.
  intros returning out. subst out.
  pose proof (insert_without_pk_all_saved (λ _, returning_features) returning
                qs None None [id_field; name_field] 2 [0; 1]%nat
                (world keyless) _ eq_refl
                (pair_with_snd _ _ eq_refl)) as Hsaved.
  split; apply Hsaved.
  - by left.
  - apply elem_of_cons. right. by left.
Defined.

Lemma bulk_create_frame_witness :
  let out := run features random_key insert_all [0; 1]%nat None keyless in
  heap out.1 2%nat = keyless 2%nat.
Proof.
  intros out. subst out. unfold run.
  refine (bulk_create_frame (λ _, features) random_key no_related insert_all qs
            [0; 1]%nat None false false None None (world keyless) _ _ 2%nat
            _ _).
  - apply surjective_pairing.
  - intros Hin.
    repeat (apply elem_of_cons in Hin as [Hin|Hin]; [discriminate|]).
    by apply elem_of_nil in Hin.
Defined.

Lemma bulk_create_insert_arguments_witness :
  let out := run features no_default insert_all [0; 1]%nat None keyless in
  extends (insert_arguments qs None) (world keyless) out.1.
Proof.
  intros out. subst out. unfold run.
  refine (bulk_create_insert_arguments (λ _, features) no_default no_related
            insert_all qs [0; 1]%nat None false false None None None
            (world keyless) _ _ _ _).
  - reflexivity.
  - apply surjective_pairing.
Defined.

Lemma prepare_draws_no_key_for_keyed_witness :
  let mixed : Store := λ l, match l with O => keyed O | _ => keyless l end in
  let out := spanner_prepare_for_bulk_create random_key no_related qs
               [0; 1; 0]%nat (world mixed) in
  log out.1 = log (world mixed) ++ [EvAssignKey 1]
  ∧ EvAssignKey 0 ∉ [EvAssignKey 1].
Proof.
  intros mixed out. subst out.
  assert (log (spanner_prepare_for_bulk_create random_key no_related qs
                 [0; 1; 0]%nat (world mixed)).1
          = log (world mixed) ++ [EvAssignKey 1]) as Hlog
    by (vm_compute; reflexivity).
  split; [exact Hlog|].
  refine (prepare_draws_no_key_for_keyed random_key no_related qs _
            [0; 1; 0]%nat (world mixed) _ _ [EvAssignKey 1] 0%nat _ _ Hlog).
  - intros h l o [= <-] Hl. exact Hl.
  - vm_compute. discriminate.
  - apply surjective_pairing.
Defined.

Lemma partition_groups_uniform_witness :
  let mixed : Store := λ l, match l with O => keyed O | _ => keyless l end in
  let groups := partition (λ o, pk_is_None opts (mixed o)) [1; 0; 2]%nat in
  Forall (λ o, has_pk opts (mixed o)) groups.1
  ∧ Forall (λ o, get_pk opts (mixed o) = VNone) groups.2
  ∧ Forall (Forall (λ o, has_pk opts (mixed o))) [[0%nat]]
  ∧ groups.1 ++ groups.2 ≡ₚ [1; 0; 2]%nat.
Proof.
  intros mixed groups. subst groups.
  refine (partition_groups_uniform opts mixed [1; 0; 2]%nat 2 [[0%nat]] _).
  vm_compute. reflexivity.
Defined.

Lemma chunks_count_and_fill_witness :
  Z.of_nat (length [[0; 1]; [2; 3]; [4]]%nat) = (5 + 2 - 1) / 2
  ∧ ∀ (i : nat) c, [[0; 1]; [2; 3]; [4]]%nat !! i = Some c →
      (S i < 3)%nat → length c = 2%nat.
Proof.
  refine (chunks_count_and_fill opts (λ l, new_singer (VInt 1) VNone)
            [0; 1; 2; 3; 4]%nat 2 [[0; 1]; [2; 3]; [4]]%nat _).
  vm_compute. reflexivity.
Defined.

(** A timestamp as what it prints and its microseconds; the inherited
    comparison looks at both. *)
Lemma datetimewithnanoseconds_eq_extends_witness :
  datetimewithnanoseconds_eq (λ b : bool, b)
    (Some (λ a b : string * Z, bool_decide (a = b))) (λ _ _, false)
    (λ _, true) fst ("Fri Jan 10 02:44:57 2020", 999)
    ("Fri Jan 10 02:44:57 2020", 0)
  = false || (true && bool_decide ("Fri Jan 10 02:44:57 2020"
                                   = "Fri Jan 10 02:44:57 2020")).
Proof.
  refine (proj2 (proj2 (datetimewithnanoseconds_eq_extends (λ b : bool, b)
                          (λ a b : string * Z, bool_decide (a = b))
                          (λ _ _, false) (λ _, true) fst
                          ("Fri Jan 10 02:44:57 2020", 999)
                          ("Fri Jan 10 02:44:57 2020", 0))) _).
  reflexivity.
Defined.
